(** * The determinant routine of mathjs: [src/function/matrix/det.js]

    A shallow embedding of [det] (the shape dispatcher) and [_det] (the
    evaluator) together with the properties of the permutation-sign scan. *)

From stdpp Require Import base numbers list strings pretty gmap.
From Stdlib Require Import ZArith Lia.

(** ** The cycle scan of [_det] (lines 118-136)

    The scan only looks at the permutation array [decomp.p] and at the local
    array [visited]; it is embedded on its own, before the rest of [_det]. *)

Module Cycles.

(** A property key met by the scan: an array index, or [undefined] (what
    [decomp.p[j]] evaluates to when [j] is out of range or itself
    [undefined]). *)
Definition key : Type := option nat.

(** [decomp.p[j]]. *)
Definition p_at (p : list nat) (j : key) : key := j ≫= λ j', p !! j'.

(** [visited[k]].  The array starts empty and only ever receives [true]; it
    is kept as the list of the keys written so far, one entry per executed
    assignment [visited[k] = true], oldest first.  A key that was never
    written reads as [undefined], which is falsy. *)
Definition is_visited (visited : list key) (k : key) : bool :=
  bool_decide (k ∈ visited).

(** [while (visited[i]) { i++ }] *)
Fixpoint skip_visited (fuel : nat) (visited : list key) (i : nat) : option nat :=
  match fuel with
  | 0 => None
  | S fuel' =>
      if is_visited visited (Some i) then skip_visited fuel' visited (S i)
      else Some i
  end.

(** [while (!visited[decomp.p[j]]) { visited[decomp.p[j]] = true; j = decomp.p[j]; cycleLen++ }]
    The loop hands back [visited] and [cycleLen]; [j] is dead afterwards. *)
Fixpoint follow (fuel : nat) (p : list nat) (visited : list key) (j : key)
    (cycleLen : nat) : option (list key * nat) :=
  match fuel with
  | 0 => None
  | S fuel' =>
      if negb (is_visited visited (p_at p j))
      then follow fuel' p (visited ++ [p_at p j]) (p_at p j) (S cycleLen)
      else Some (visited, cycleLen)
  end.

(** The variables of the scan that are live when the outer loop is left. *)
Record scan_state : Type := ScanState {
  sc_i : nat;
  sc_visited : list key;
  sc_evenCycles : nat
}.

(** The outer [while (true)] loop.  [None] stands for a run that is still
    going when the fuel is used up. *)
Fixpoint scan_from (fuel : nat) (p : list nat) (rows : nat)
    (i : nat) (visited : list key) (evenCycles : nat) : option scan_state :=
  match fuel with
  | 0 => None
  | S fuel' =>
      match skip_visited fuel visited i with
      | None => None
      | Some i =>
          if rows <=? i then Some (ScanState i visited evenCycles)
          else
            match follow fuel p visited (Some i) 0 with
            | None => None
            | Some (visited, cycleLen) =>
                scan_from fuel' p rows i visited
                  (if (cycleLen mod 2) =? 0 then S evenCycles else evenCycles)
            end
      end
  end.

(** [let evenCycles = 0; let i = 0; const visited = []; while (true) ...] *)
Definition scan (fuel : nat) (p : list nat) (rows : nat) : option scan_state :=
  scan_from fuel p rows 0 [] 0.

(** *** Permutations and their cycles *)

(** [p] is a permutation of [0, n): no index missing, none repeated. *)
Definition valid_perm (p : list nat) (n : nat) : Prop := p ≡ₚ seq 0 n.

(** [c] lists one cycle of [p]: distinct indices, each mapped by [p] to the
    next one, the last one back to the first. *)
Definition is_cycle (p : list nat) (c : list nat) : Prop :=
  c ≠ [] ∧ NoDup c ∧
  ∀ k x, c !! k = Some x → p !! x = c !! (S k `mod` length c).

(** [cs] is a decomposition of [p] into disjoint cycles that cover [0, n). *)
Definition cycle_decomposition (p : list nat) (cs : list (list nat)) : Prop :=
  Forall (is_cycle p) cs ∧ concat cs ≡ₚ seq 0 (length p).

(** How many of the cycles have even length. *)
Definition count_even (cs : list (list nat)) : nat :=
  length (filter (λ c, Nat.even (length c) = true) cs).

(** The sign [(-1)^k]. *)
Definition sign_pow (k : nat) : Z := ((-1) ^ Z.of_nat k)%Z.

(** The indices read along [j ← p[j]] from [x]: [t] is [p[x]], [p[p[x]]], ... *)
Fixpoint chain (p : list nat) (x : nat) (t : list nat) : Prop :=
  match t with
  | [] => True
  | y :: t' => p !! x = Some y ∧ chain p y t'
  end.

(** [V] is closed under going back along [p]. *)
Definition closed (p : list nat) (V : list nat) : Prop :=
  ∀ x y, p !! x = Some y → y ∈ V → x ∈ V.

(** The first [n] iterates of [p] at [x]: [x], [p[x]], [p[p[x]]], ... *)
Definition orbit (p : list nat) (n x : nat) : list nat :=
  (λ k, Nat.iter k (λ y, p !!! y) x) <$> seq 0 n.

(** [x] is the least index of its own cycle. *)
Definition leader (p : list nat) (x : nat) : bool :=
  forallb (λ y, x <=? y) (orbit p (length p) x).

(** The length of the cycle of [p] through [x]. *)
Definition cycle_len (p : list nat) (x : nat) : nat :=
  length (remove_dups (orbit p (length p) x)).

(** The number of cycles of [p], one leader each. *)
Definition num_cycles (p : list nat) : nat :=
  length (filter (λ x, leader p x = true) (seq 0 (length p))).

(** The number of cycles of [p] of even length. *)
Definition num_even_cycles (p : list nat) : nat :=
  length (filter (λ x, leader p x && Nat.even (cycle_len p x) = true)
                 (seq 0 (length p))).

End Cycles.


(** ** Values, the store and the collaborators *)

(** A JS value as it sits inside an array: a scalar (anything that is not an
    array) or a nested array, held by value. *)
Unset Elimination Schemes.
Inductive jsval (S : Type) : Type :=
  | Elem (s : S)
  | Arr (items : list (jsval S)).
Set Elimination Schemes.
Arguments Elem {S} s.
Arguments Arr {S} items.

(** What [lup] hands back: [{ L, U, p }]. *)
Record LUP (S : Type) : Type := MkLUP {
  L : list (jsval S);
  U : list (jsval S);
  p : list nat
}.
Arguments MkLUP {S} L U p.
Arguments L {S} _.
Arguments U {S} _.
Arguments p {S} _.

(** The injected dependencies of [createDet], and what the imported utilities
    need.  [typed] is the dispatch on the argument's kind and is part of
    [det] below; [matrix] wraps an array and reports [matrix_size] of it.
    [lup] is given the content of the array it is called on and returns the
    content it leaves there together with its result or the error it
    raises. *)
Class Dependencies : Type := {
  scalar : Type;
  undefined : scalar;
  lup_error : Type;
  subtract : jsval scalar → jsval scalar → jsval scalar;
  multiply : jsval scalar → jsval scalar → jsval scalar;
  unaryMinus : jsval scalar → jsval scalar;
  lup : list (jsval scalar) →
        list (jsval scalar) * (lup_error + LUP scalar);
  matrix_size : list (jsval scalar) → list nat;
  format : list nat → string
}.

(** Arrays live in the store and are passed by reference. *)
Definition loc : Type := positive.

(** Modelled from the spec: the Matrix abstraction is not among the sources;
    it reports its size as a list of dimension lengths and exposes the array
    that backs it. *)
Record Matrix : Type := MkMatrix {
  m_size : list nat;
  m_data : loc
}.

Section model.
Context `{Dependencies}.

Abbreviation js := (jsval scalar).

(** An argument or result of [det]. *)
Inductive value : Type :=
  | VJs (v : js)
  | VArray (l : loc)
  | VMatrix (m : Matrix).

Inductive error : Type :=
  | RangeError (message : string)
  | TypeError
  | LupFailure (e : lup_error).

(** How a call ends.  [OutOfFuel] stands for a run that is still going when
    the fuel given to the scan is used up. *)
Inductive outcome (A : Type) : Type :=
  | Return (a : A)
  | Throw (e : error)
  | OutOfFuel.
Arguments Return {A} a.
Arguments Throw {A} e.
Arguments OutOfFuel {A}.

(** The calls that are recorded as they happen.  The record is not a
    variable of the program: it is kept so that a statement can say which
    collaborators were called, on what and in which order. *)
Inductive call : Type :=
  | Call_det (rows cols : nat)
  | Call_lup (matrix : loc)
  | Call_multiply (a b : js)
  | Call_subtract (a b : js)
  | Call_unaryMinus (a : js).

Record world : Type := MkWorld {
  heap : gmap loc (list js);
  calls : list call
}.

Definition M (A : Type) : Type := world → world * outcome A.

#[global] Instance M_ret : MRet M := λ A a w, (w, Return a).

Definition throw {A} (e : error) : M A := λ w, (w, Throw e).

Definition out_of_fuel {A} : M A := λ w, (w, OutOfFuel).

#[global] Instance M_bind : MBind M := λ A B k m w,
  match m w with
  | (w', Return a) => k a w'
  | (w', Throw e) => (w', Throw e)
  | (w', OutOfFuel) => (w', OutOfFuel)
  end.

Definition record (c : call) : M unit :=
  λ w, (MkWorld (heap w) (calls w ++ [c]), Return tt).

(** Reading the array behind a reference.  A reference to no array does not
    arise in JS; the model raises [TypeError] for it. *)
Definition read (l : loc) : M (list js) :=
  λ w, match heap w !! l with
       | Some a => (w, Return a)
       | None => (w, Throw TypeError)
       end.

Definition write (l : loc) (a : list js) : M unit :=
  λ w, (MkWorld (<[l := a]> (heap w)) (calls w), Return tt).

(** A new array, at a reference that is not in use. *)
Definition alloc (a : list js) : M loc :=
  λ w, let l := fresh (dom (heap w)) in
       (MkWorld (<[l := a]> (heap w)) (calls w), Return l).

(** [a[i]] on an array: out of range reads [undefined]. *)
Definition index (a : list js) (i : nat) : js :=
  default (Elem undefined) (a !! i).

(** [a[i][j]].  [a[i]] out of range is [undefined], and reading [[j]] of it
    raises.  A row that is not an array is outside what a Matrix or [lup]
    holds; the model raises [TypeError] for it as well. *)
Definition index2 (a : list js) (i j : nat) : M js :=
  match a !! i with
  | Some (Arr row) => mret (index row j)
  | _ => throw TypeError
  end.

(** [matrix[i][j]] through the reference. *)
Definition get2 (matrix : loc) (i j : nat) : M js :=
  a ← read matrix; index2 a i j.

(** Modelled from the spec: [clone] of utils/object is not among the
    sources; it returns a deep copy.  On a value held directly, which nothing
    can change, the copy is that value. *)
Definition clone_js (v : js) : js := v.

(** Modelled from the spec: [clone(x)], a deep copy; the copy of an array
    or Matrix has a new backing array with the same content. *)
Definition clone (x : value) : M value :=
  match x with
  | VJs v => mret (VJs (clone_js v))
  | VArray l => a ← read l; l' ← alloc a; mret (VArray l')
  | VMatrix m =>
      a ← read (m_data m); l' ← alloc a; mret (VMatrix (MkMatrix (m_size m) l'))
  end.

(** Modelled from the spec: [matrix(x)] for an array [x] converts it into
    the Matrix abstraction, which determines its size; the Matrix is backed
    by the very array, not by a copy.  The spec does not say what the
    conversion does to that array; here it leaves it as it is.  [matrix_via]
    below leaves that open. *)
Definition matrix (l : loc) : M Matrix :=
  a ← read l; mret (MkMatrix (matrix_size a) l).

(** Modelled from the spec: [x.clone()], the deep clone of a Matrix.  On
    anything else there is no such method to call. *)
Definition clone_method (x : value) : M value :=
  match x with
  | VMatrix _ => clone x
  | _ => throw TypeError
  end.

(** Modelled from the spec: [x.valueOf()], the backing array of a Matrix
    (and an array is its own [valueOf]). *)
Definition valueOf (x : value) : M loc :=
  match x with
  | VMatrix m => mret (m_data m)
  | VArray l => mret l
  | VJs _ => throw TypeError
  end.

Definition call_multiply (a b : js) : M js :=
  record (Call_multiply a b);; mret (multiply a b).

Definition call_subtract (a b : js) : M js :=
  record (Call_subtract a b);; mret (subtract a b).

Definition call_unaryMinus (a : js) : M js :=
  record (Call_unaryMinus a);; mret (unaryMinus a).

(** [lup(matrix)]: the collaborator may change the array it is given; an
    error it raises is passed on. *)
Definition call_lup (matrix : loc) : M (LUP scalar) :=
  record (Call_lup matrix);;
  a ← read matrix;
  write matrix (lup a).1;;
  match (lup a).2 with
  | inl e => throw (LupFailure e)
  | inr decomp => mret decomp
  end.

Definition square_message (size : list nat) : string :=
  "Matrix must be square " +:+ "(size: " +:+ format size +:+ ")".

Definition two_dimensional_message (size : list nat) : string :=
  "Matrix must be two dimensional " +:+ "(size: " +:+ format size +:+ ")".

(** ** [_det] (lines 95-140) *)

(** [for (let i = 1; i < rows; i++) { det = multiply(det, decomp.U[i][i]) }],
    over the values [idx] that [i] takes. *)
Fixpoint diagonal_loop (decomp : LUP scalar) (idx : list nat) (det : js) : M js :=
  match idx with
  | [] => mret det
  | i :: idx' =>
      u ← index2 (U decomp) i i;
      det ← call_multiply det u;
      diagonal_loop decomp idx' det
  end.

Definition _det (fuel : nat) (matrix : loc) (rows cols : nat) : M value :=
  record (Call_det rows cols);;
  if rows =? 1 then
    m00 ← get2 matrix 0 0;
    mret (VJs (clone_js m00))
  else if rows =? 2 then
    m00 ← get2 matrix 0 0;
    m11 ← get2 matrix 1 1;
    l ← call_multiply m00 m11;
    m10 ← get2 matrix 1 0;
    m01 ← get2 matrix 0 1;
    r ← call_multiply m10 m01;
    d ← call_subtract l r;
    mret (VJs d)
  else
    decomp ← call_lup matrix;
    det ← index2 (U decomp) 0 0;
    det ← diagonal_loop decomp (seq 1 (rows - 1)) det;
    match Cycles.scan fuel (p decomp) rows with
    | None => out_of_fuel
    | Some st =>
        if (Cycles.sc_evenCycles st mod 2) =? 0 then mret (VJs det)
        else d ← call_unaryMinus det; mret (VJs d)
    end.

(** ** [det] (lines 37-85) *)

(** The ['Array | Matrix'] signature. *)
Definition det_Array_Matrix (fuel : nat) (x : value) : M value :=
  xs ← match x with
       | VMatrix m => mret (x, m_size m)
       | VArray l => m ← matrix l; mret (VMatrix m, m_size m)
       | VJs _ => mret (x, [])
       end;
  let x := xs.1 in
  let size := xs.2 in
  match size with
  | [] => clone x
  | [s0] =>
      if s0 =? 1 then
        l ← valueOf x;
        a ← read l;
        mret (VJs (clone_js (index a 0)))
      else throw (RangeError (square_message size))
  | [rows; cols] =>
      if rows =? cols then
        c ← clone_method x;
        l ← valueOf c;
        _det fuel l rows cols
      else throw (RangeError (square_message size))
  | _ => throw (RangeError (two_dimensional_message size))
  end.

(** [typed(name, { 'any': ..., 'Array | Matrix': ... })]: an array or a
    Matrix goes to the second signature, everything else to ['any']. *)
Definition det (fuel : nat) (x : value) : M value :=
  match x with
  | VArray _ | VMatrix _ => det_Array_Matrix fuel x
  | VJs _ => clone x
  end.

(** *** Vocabulary of the statements *)

(** The size that [det] sees for [x]: what the Matrix reports, or what
    [matrix] reports for the array; a value held directly has rank 0. *)
Definition reported_size (w : world) (x : value) : option (list nat) :=
  match x with
  | VJs _ => Some []
  | VArray l => matrix_size <$> heap w !! l
  | VMatrix m => Some (m_size m)
  end.

(** The array behind [x], if [x] is an array or a Matrix over a live array. *)
Definition backing (w : world) (x : value) : option (list js) :=
  match x with
  | VJs _ => None
  | VArray l => heap w !! l
  | VMatrix m => heap w !! m_data m
  end.

(** The calls recorded by running [m] from [w]. *)
Definition new_calls {A} (m : M A) (w : world) : list call :=
  drop (length (calls w)) (calls (m w).1).

(** Arithmetic or decomposition. *)
Definition is_work (c : call) : bool :=
  match c with
  | Call_det _ _ => false
  | _ => true
  end.

(** [m] changes the store at most at [l]. *)
Definition writes_only {A} (l : loc) (m : M A) : Prop :=
  ∀ w l0, l0 ≠ l → heap (m w).1 !! l0 = heap w !! l0.

(** [m] only adds to the record of calls, and what it adds satisfies [P]. *)
Definition records_only {A} (P : call → Prop) (m : M A) : Prop :=
  ∀ w, ∃ cs, calls (m w).1 = calls w ++ cs ∧ Forall P cs.

Definition work (c : call) : Prop := is_work c = true.

(** Every error [m] raises satisfies [P]. *)
Definition raises_only {A} (P : error → Prop) (m : M A) : Prop :=
  ∀ w e, (m w).2 = Throw e → P e.

(** The errors the evaluator can end with: a failed read, or what the
    decomposition raised. *)
Definition not_RangeError (e : error) : Prop := ∀ message, e ≠ RangeError message.

(** The sizes that are rejected as not square. *)
Definition non_square (size : list nat) : Prop :=
  (∃ len, size = [len] ∧ len ≠ 1) ∨
  (∃ rows cols, size = [rows; cols] ∧ rows ≠ cols).

(** [a[i][j]] where both reads are in range. *)
Definition entry (a : list js) (i j : nat) : option js :=
  match a !! i with
  | Some (Arr row) => row !! j
  | _ => None
  end.

(** The diagonal [a[0][0], ..., a[n-1][n-1]], when every entry is there. *)
Definition diagonal (a : list js) (n : nat) : option (list js) :=
  mapM (λ i, entry a i i) (seq 0 n).

End model.

Arguments Return {_ A} a.
Arguments Throw {_ A} e.
Arguments OutOfFuel {_ A}.


(** ** An instance: integer matrices

    Used to run the embedding on the cases the documentation quotes. *)

Module Numbers.

Inductive num : Type :=
  | Undefined
  | Num (z : Z).

Definition arith (f : Z → Z → Z) (a b : jsval num) : jsval num :=
  match a, b with
  | Elem (Num x), Elem (Num y) => Elem (Num (f x y))
  | _, _ => Elem Undefined
  end.

Definition negate (a : jsval num) : jsval num :=
  match a with
  | Elem (Num x) => Elem (Num (- x))
  | _ => Elem Undefined
  end.

Definition row (zs : list Z) : jsval num := Arr ((λ z, Elem (Num z)) <$> zs).

Definition rows (zss : list (list Z)) : list (jsval num) := row <$> zss.

Definition to_Z (v : jsval num) : option Z :=
  match v with
  | Elem (Num z) => Some z
  | _ => None
  end.

Definition to_row (v : jsval num) : option (list Z) :=
  match v with
  | Arr items => mapM to_Z items
  | Elem _ => None
  end.

(** Modelled from the spec: the size of a nested array is read off along its
    first entries, one length per level ([arraySize] is not among the
    sources). *)
Fixpoint size_of (v : jsval num) : list nat :=
  match v with
  | Elem _ => []
  | Arr items =>
      length items :: match items with
                      | [] => []
                      | first :: _ => size_of first
                      end
  end.

(** A decomposition that knows the factorisations of the matrices listed
    here, works in place (it leaves [U] in the array it was given) and fails
    on any other matrix. *)
Definition known : list (list (list Z) * (list (list Z) * list nat)) :=
  [ ([[0; 1; 0]; [1; 0; 0]; [0; 0; 1]]%Z,
     ([[1; 0; 0]; [0; 1; 0]; [0; 0; 1]]%Z, [1; 0; 2]));
    ([[2; 1; 1]; [0; 3; 1]; [0; 0; 4]]%Z,
     ([[2; 1; 1]; [0; 3; 1]; [0; 0; 4]]%Z, [0; 1; 2]));
    ([[1; 0; 0]; [0; 1; 0]; [0; 0; 1]]%Z,
     ([[1; 0; 0]; [0; 1; 0]; [0; 0; 1]]%Z, [0; 1; 2])) ].

Definition identity (n : nat) : list (list Z) :=
  (λ i, (λ j, if decide (i = j) then 1%Z else 0%Z) <$> seq 0 n) <$> seq 0 n.

Definition lup_known (a : list (jsval num)) :
    list (jsval num) * (unit + LUP num) :=
  match mapM to_row a with
  | Some m =>
      match list_find (λ entry, entry.1 = m) known with
      | Some (_, (_, (u, perm))) =>
          (rows u, inr (MkLUP (rows (identity (length m))) (rows u) perm))
      | None => (a, inl tt)
      end
  | None => (a, inl tt)
  end.

Fixpoint join (l : list string) : string :=
  match l with
  | [] => ""
  | [x] => x
  | x :: l' => x +:+ ", " +:+ join l'
  end.

Definition format_size (size : list nat) : string :=
  "[" +:+ join (pretty <$> size) +:+ "]".

Definition numbers : Dependencies := {|
  scalar := num;
  undefined := Undefined;
  lup_error := unit;
  subtract := arith Z.sub;
  multiply := arith Z.mul;
  unaryMinus := negate;
  lup := lup_known;
  matrix_size := λ a, size_of (Arr a);
  format := format_size
|}.

(** A store that holds the given arrays at the references 1, 2, ... and has
    recorded no call yet. *)
Definition store (arrays : list (list (jsval num))) : world (H := numbers) :=
  MkWorld (H := numbers)
    (list_to_map (zip (Pos.of_nat <$> seq 1 (length arrays)) arrays)) [].

End Numbers.

(** ** Further vocabulary *)

(** A key that reading [decomp.p] can yield: [undefined], or an entry of [p]. *)
Definition key_of (p : list nat) (k : Cycles.key) : Prop :=
  k = None ∨ ∃ y, y ∈ p ∧ k = Some y.

(** [c] lists a cycle of [p] that ends in [z]: started at [z], following [p]
    reads [c] and is back at [z] at its end. *)
Definition rooted (p : list nat) (z : nat) (c : list nat) : Prop :=
  Cycles.chain p z c ∧ last c = Some z ∧ NoDup c.

(** [p] with the entries at the positions [i] and [j] exchanged. *)
Definition swap_entries (i j : nat) (p : list nat) : list nat :=
  match p !! i, p !! j with
  | Some a, Some b => <[i := b]> (<[j := a]> p)
  | _, _ => p
  end.

(** A second instance on integer matrices, for inputs that are upper
    triangular already: the decomposition hands back the matrix itself as
    [U], together with the array [perm] it was set up with, and leaves its
    argument alone. *)
Definition lup_given (perm : list nat) (a : list (jsval Numbers.num)) :
    list (jsval Numbers.num) * (unit + LUP Numbers.num) :=
  (a, inr (MkLUP [] a perm)).

Definition numbers_given (perm : list nat) : Dependencies := {|
  scalar := Numbers.num;
  undefined := Numbers.Undefined;
  lup_error := unit;
  subtract := Numbers.arith Z.sub;
  multiply := Numbers.arith Z.mul;
  unaryMinus := Numbers.negate;
  lup := lup_given perm;
  matrix_size := λ a, Numbers.size_of (Arr a);
  format := Numbers.format_size
|}.

Definition store_given (perm : list nat)
    (arrays : list (list (jsval Numbers.num))) : world (H := numbers_given perm) :=
  MkWorld (H := numbers_given perm)
    (list_to_map (zip (Pos.of_nat <$> seq 1 (length arrays)) arrays)) [].

(** [m] comes to an end from every world: it returns or raises. *)
Definition comes_to_an_end `{Dependencies} {A} (m : M A) : Prop :=
  ∀ w, (m w).2 ≠ OutOfFuel.

(** The calls of [multiply] made while the product [d * u1 * u2 * ...] is
    built from the left. *)
Fixpoint product_calls `{Dependencies} (d : jsval scalar)
    (us : list (jsval scalar)) : list call :=
  match us with
  | [] => []
  | u :: us' => Call_multiply d u :: product_calls (multiply d u) us'
  end.


(** *** The scan with its tests counted

    The same three loops; [tests] goes up by one each time a loop condition
    ([visited[i]], [i >= rows], [!visited[decomp.p[j]]]) is evaluated.  The
    counter is not a variable of the program. *)





(** *** [det] with the conversion of an array left open

    Neither the sources nor the spec say what [matrix(x)] does to the array
    it is given.  [conv a] is what the conversion leaves in an array that held
    [a]; the Matrix is backed by that array and reports the size of what is
    in it now. *)

Definition matrix_via `{Dependencies}
    (conv : list (jsval scalar) → list (jsval scalar)) (l : loc) : M Matrix :=
  a ← read l;
  write l (conv a);;
  mret (MkMatrix (matrix_size (conv a)) l).

(** [det], line for line, with [x = matrix(x)] run through [matrix_via]:
    after it [x] is a Matrix and the lines that follow are those of [det] on
    a Matrix. *)
Definition det_via `{Dependencies}
    (conv : list (jsval scalar) → list (jsval scalar))
    (fuel : nat) (x : value) : M value :=
  match x with
  | VArray l => m ← matrix_via conv l; det_Array_Matrix fuel (VMatrix m)
  | VMatrix _ | VJs _ => det fuel x
  end.

(** An instance whose arrays may hold Matrix objects as entries, and a
    conversion that puts, in the array it wraps, the plain array in place of
    each row that is a Matrix. *)
Module Cells.

Inductive cell : Type :=
  | CUndefined
  | CNum (z : Z)
  | CMatrix (entries : list Z).

Definition arith (f : Z → Z → Z) (a b : jsval cell) : jsval cell :=
  match a, b with
  | Elem (CNum x), Elem (CNum y) => Elem (CNum (f x y))
  | _, _ => Elem CUndefined
  end.

Definition negate (a : jsval cell) : jsval cell :=
  match a with
  | Elem (CNum x) => Elem (CNum (- x))
  | _ => Elem CUndefined
  end.

Fixpoint size_of (v : jsval cell) : list nat :=
  match v with
  | Elem _ => []
  | Arr items =>
      length items :: match items with
                      | [] => []
                      | first :: _ => size_of first
                      end
  end.

Definition cells : Dependencies := {|
  scalar := cell;
  undefined := CUndefined;
  lup_error := unit;
  subtract := arith Z.sub;
  multiply := arith Z.mul;
  unaryMinus := negate;
  lup := λ a, (a, inl tt);
  matrix_size := λ a, size_of (Arr a);
  format := Numbers.format_size
|}.

Definition plain_row (zs : list Z) : jsval cell :=
  Arr ((λ z, Elem (CNum z)) <$> zs).

Definition unwrap_rows (a : list (jsval cell)) : list (jsval cell) :=
  (λ row, match row with
          | Elem (CMatrix zs) => plain_row zs
          | _ => row
          end) <$> a.

Definition store (arrays : list (list (jsval cell))) : world (H := cells) :=
  MkWorld (H := cells)
    (list_to_map (zip (Pos.of_nat <$> seq 1 (length arrays)) arrays)) [].

End Cells.

(** * Properties *)

Import Cycles.

(** ** Permutations of [0, n) *)

Section perm_facts.
Context (p : list nat) (n : nat) (Hp : valid_perm p n).

Lemma valid_perm_length : length p = n.
Proof. rewrite Hp. apply length_seq. Qed.

Lemma valid_perm_NoDup : NoDup p.
Proof. rewrite Hp. apply NoDup_seq. Qed.

Lemma valid_perm_lookup_lt j y : p !! j = Some y → y < n.
Proof.
  intros Hj. apply list_elem_of_lookup_2 in Hj. rewrite Hp in Hj.
  apply elem_of_seq in Hj. lia.
Qed.

Lemma valid_perm_lookup_total j : j < n → ∃ y, p !! j = Some y ∧ y < n.
Proof.
  intros Hj. destruct (lookup_lt_is_Some_2 p j) as [y Hy].
  - by rewrite valid_perm_length.
  - exists y. split; [done|]. by eapply valid_perm_lookup_lt.
Qed.

Lemma valid_perm_inj a b y : p !! a = Some y → p !! b = Some y → a = b.
Proof. apply NoDup_lookup, valid_perm_NoDup. Qed.
End perm_facts.

(** ** The inner loop follows one cycle *)

Lemma is_visited_Some (V : list nat) (x : nat) :
  is_visited (Some <$> V) (Some x) = bool_decide (x ∈ V).
Proof.
  unfold is_visited. apply bool_decide_ext. rewrite list_elem_of_fmap. split.
  - by intros (y & [= ->] & ?).
  - eauto.
Qed.

Lemma default_last_cons (i z : nat) (t : list nat) :
  default i (last (z :: t)) = default z (last t).
Proof. rewrite last_cons. by destruct (last t). Qed.

Lemma default_last_elem (i : nat) (t : list nat) :
  default i (last t) = i ∨ default i (last t) ∈ t.
Proof.
  destruct (last t) as [y|] eqn:Hl; [right|by left].
  simpl. rewrite last_lookup in Hl. by eapply list_elem_of_lookup_2.
Qed.

Lemma cons_lookup_last (i : nat) (t : list nat) :
  (i :: t) !! length t = Some (default i (last t)).
Proof.
  rewrite <-default_last_cons with (i := i) (z := i) at 1.
  change (length t) with (pred (length (i :: t))). rewrite <-last_lookup.
  rewrite last_cons. by destruct (last t).
Qed.

Lemma chain_lookup p i t m y :
  chain p i t → t !! m = Some y →
  ∃ prev, (i :: t) !! m = Some prev ∧ p !! prev = Some y.
Proof.
  revert i m. induction t as [|z t IH]; intros i m Hc Hm; [done|].
  destruct Hc as [Hz Hc]. destruct m as [|m]; simpl in *.
  - injection Hm as ->. eauto.
  - apply (IH z m Hc Hm).
Qed.

Lemma chain_snoc p i t y :
  chain p i t → p !! default i (last t) = Some y → chain p i (t ++ [y]).
Proof.
  revert i. induction t as [|z t IH]; intros i Hc Hy; simpl in *; [done|].
  destruct Hc as [Hz Hc]. split; [done|]. apply IH; [done|].
  by rewrite default_last_cons in Hy.
Qed.

Lemma NoDup_lt_length (l : list nat) (n : nat) :
  NoDup l → (∀ x, x ∈ l → x < n) → length l ≤ n.
Proof.
  intros Hnd Hlt. rewrite <-(length_seq n 0).
  apply submseteq_length, NoDup_submseteq; [done|].
  intros x Hx. apply elem_of_seq. specialize (Hlt x Hx). lia.
Qed.

Section inner_loop.
Context (p : list nat) (n : nat) (V : list nat) (i : nat).
Context (Hp : valid_perm p n) (Hcl : closed p V) (Hi : i < n) (HiV : i ∉ V).

(** While the start index has not come up again, the next index read is new. *)
Lemma follow_next_fresh t y :
  chain p i t → NoDup (V ++ t) → i ∉ t →
  p !! default i (last t) = Some y → y ∉ V ++ t.
Proof.
  intros Hc Hnd Hit Hy [HyV|Hyt]%elem_of_app.
  - pose proof (Hcl _ _ Hy HyV) as HjV.
    destruct (default_last_elem i t) as [Heq|Hjt]; [by rewrite Heq in HjV|].
    apply NoDup_app in Hnd as (_ & Hdisj & _). by eapply Hdisj.
  - apply list_elem_of_lookup in Hyt as [m Hm].
    destruct (chain_lookup _ _ _ _ _ Hc Hm) as (prev & Hprev & Hpy).
    pose proof (valid_perm_inj p n Hp _ _ _ Hpy Hy) as ->.
    assert (NoDup (i :: t)) as Hnd'.
    { apply NoDup_cons. split; [done|]. by apply NoDup_app in Hnd as (_ & _ & ?). }
    pose proof (NoDup_lookup _ _ _ _ Hnd' Hprev (cons_lookup_last i t)) as ->.
    apply lookup_lt_Some in Hm. lia.
Qed.

Lemma follow_run d :
  ∀ t fuel,
    n - length (V ++ t) ≤ d → d < fuel →
    chain p i t → NoDup (V ++ t) → i ∉ t → (∀ x, x ∈ V ++ t → x < n) →
    ∃ t',
      follow fuel p (Some <$> (V ++ t)) (Some (default i (last t))) (length t)
        = Some (Some <$> (V ++ t ++ t'), length (t ++ t')) ∧
      chain p i (t ++ t') ∧ last (t ++ t') = Some i ∧
      NoDup (V ++ t ++ t') ∧ (∀ x, x ∈ V ++ t ++ t' → x < n).
Proof.
  induction d as [|d IH]; intros t fuel Hd Hfuel Hc Hnd Hit Hlt.
  all: assert (length (V ++ t) < n) as Hlen.
  1,3: (assert (S (length (V ++ t)) ≤ n); [|lia];
        apply (NoDup_lt_length (i :: V ++ t));
        [apply NoDup_cons; split; [|done]; rewrite elem_of_app; tauto
        |intros x [->|Hx]%elem_of_cons; auto]).
  { lia. }
  destruct fuel as [|fuel]; [lia|].
  assert (default i (last t) < n) as Hj.
  { destruct (default_last_elem i t) as [->|Hjt]; [done|].
    apply Hlt, elem_of_app. by right. }
  destruct (valid_perm_lookup_total p n Hp _ Hj) as (y & Hy & Hyn).
  pose proof (follow_next_fresh t y Hc Hnd Hit Hy) as Hfresh.
  assert (NoDup (V ++ t ++ [y])) as Hnd2.
  { rewrite app_assoc. apply NoDup_app. split_and!; [done| |apply NoDup_singleton].
    intros x Hx ->%list_elem_of_singleton. done. }
  assert (∀ x, x ∈ V ++ t ++ [y] → x < n) as Hlt2.
  { intros x. rewrite app_assoc. intros [?| ->%list_elem_of_singleton]%elem_of_app; auto. }
  pose proof (chain_snoc _ _ _ _ Hc Hy) as Hc2.
  simpl. rewrite Hy, is_visited_Some, bool_decide_eq_false_2 by done. simpl.
  replace ((Some <$> V ++ t) ++ [Some y]) with (Some <$> V ++ t ++ [y])
    by (by rewrite (app_assoc V), fmap_app).
  destruct (decide (y = i)) as [->|Hne].
  - exists [i]. split_and!; try done; [|by rewrite last_snoc].
    destruct fuel as [|fuel]; [lia|]. simpl.
    destruct (chain_lookup p i (t ++ [i]) 0 (default i (head (t ++ [i]))))
      as (prev & [= <-] & Hz); [done|by destruct t|].
    rewrite Hz, is_visited_Some, bool_decide_eq_true_2.
    + simpl. by rewrite length_app, Nat.add_1_r.
    + apply elem_of_app. right. destruct t; simpl; apply elem_of_cons; by left.
  - destruct (IH (t ++ [y]) fuel) as (t' & Hrun & ? & ? & ? & ?).
    + rewrite !length_app in *. simpl. lia.
    + lia.
    + done.
    + done.
    + intros [?|Heq%list_elem_of_singleton]%elem_of_app; [done|by subst].
    + done.
    + exists (y :: t'). rewrite last_snoc, length_app, Nat.add_1_r in Hrun. simpl in Hrun.
      rewrite <-!app_assoc in *. simpl in *. done.
Qed.
End inner_loop.

Lemma chain_is_cycle p i c :
  chain p i c → last c = Some i → NoDup c → is_cycle p c.
Proof.
  intros Hc Hl Hnd. split_and!; [by intros -> | done |].
  intros k x Hk. pose proof (lookup_lt_Some _ _ _ Hk) as Hlt.
  destruct (decide (S k = length c)) as [Heq|Hne].
  - rewrite Heq, Nat.Div0.mod_same.
    rewrite last_lookup, <-Heq in Hl. simpl in Hl.
    assert (x = i) as -> by congruence.
    destruct (lookup_lt_is_Some_2 c 0) as [z Hz]; [lia|].
    destruct (chain_lookup _ _ _ _ _ Hc Hz) as (prev & [= <-] & Hpz).
    congruence.
  - rewrite Nat.mod_small by lia.
    destruct (lookup_lt_is_Some_2 c (S k)) as [z Hz]; [lia|].
    destruct (chain_lookup _ _ _ _ _ Hc Hz) as (prev & Hprev & Hpz).
    simpl in Hprev. congruence.
Qed.

Lemma chain_closed p n V i c :
  valid_perm p n → closed p V → chain p i c → last c = Some i →
  closed p (V ++ c).
Proof.
  intros Hp Hcl Hc Hl x y Hxy [HyV|Hyc]%elem_of_app; apply elem_of_app.
  - left. by eapply Hcl.
  - right. apply list_elem_of_lookup in Hyc as [m Hm].
    destruct (chain_lookup _ _ _ _ _ Hc Hm) as (prev & Hprev & Hpy).
    pose proof (valid_perm_inj p n Hp _ _ _ Hpy Hxy) as ->.
    apply list_elem_of_lookup_2, elem_of_cons in Hprev as [->|?]; [|done].
    rewrite last_lookup in Hl. by eapply list_elem_of_lookup_2.
Qed.

(** From an index that is not yet visited the inner loop marks exactly the
    cycle through it, and reports its length. *)
Lemma follow_cycle p n V i fuel :
  valid_perm p n → closed p V → NoDup V → (∀ x, x ∈ V → x < n) →
  i < n → i ∉ V → n - length V < fuel →
  ∃ c,
    follow fuel p (Some <$> V) (Some i) 0 = Some (Some <$> (V ++ c), length c) ∧
    is_cycle p c ∧ i ∈ c ∧ closed p (V ++ c) ∧
    NoDup (V ++ c) ∧ (∀ x, x ∈ V ++ c → x < n).
Proof.
  intros Hp Hcl Hnd Hlt Hi HiV Hfuel.
  destruct (follow_run p n V i Hp Hcl Hi HiV (n - length V) [] fuel)
    as (c & Hrun & Hc & Hl & Hnd' & Hlt'); simpl.
  - rewrite app_nil_r. lia.
  - done.
  - done.
  - by rewrite app_nil_r.
  - apply not_elem_of_nil.
  - by rewrite app_nil_r.
  - simpl in *. rewrite app_nil_r in Hrun. exists c. split_and!; try done.
    + apply (chain_is_cycle p i); [done..|]. by apply NoDup_app in Hnd' as (_ & _ & ?).
    + rewrite last_lookup in Hl. by eapply list_elem_of_lookup_2.
    + by eapply chain_closed.
Qed.

(** ** The skip loop stops at the first index that is not visited *)

Lemma skip_visited_run (V : list nat) (n : nat) :
  (∀ x, x ∈ V → x < n) →
  ∀ d i fuel, n - i ≤ d → d < fuel →
    ∃ i', skip_visited fuel (Some <$> V) i = Some i' ∧
          i ≤ i' ∧ (i' ∉ V) ∧ (∀ x, i ≤ x → x < i' → x ∈ V) ∧ (i' ≤ n ∨ i' = i).
Proof.
  intros Hlt. induction d as [|d IH]; intros i fuel Hd Hfuel.
  all: destruct fuel as [|fuel]; [lia|]; simpl; rewrite is_visited_Some.
  all: destruct (decide (i ∈ V)) as [Hin|Hout].
  all: try (rewrite bool_decide_eq_false_2 by done;
            exists i; split_and!; [done|lia|done|lia|by right]).
  - specialize (Hlt _ Hin). lia.
  - rewrite bool_decide_eq_true_2 by done. specialize (Hlt _ Hin).
    destruct (IH (S i) fuel) as (i' & Hrun & ? & ? & Hbetween & ?); [lia..|].
    exists i'. split_and!; [done|lia|done| |lia].
    intros x Hx1 Hx2. destruct (decide (x = i)) as [->|]; [done|]. apply Hbetween; lia.
Qed.

(** ** The whole scan on a permutation *)

Lemma mod2_eqb_even (k : nat) : ((k mod 2) =? 0) = Nat.even k.
Proof.
  destruct (Nat.even k) eqn:He.
  - apply Nat.even_spec in He as [m ->]. apply Nat.eqb_eq.
    by rewrite Nat.mul_comm, Nat.Div0.mod_mul.
  - apply Nat.eqb_neq. intros Hm. apply Nat.Div0.mod_divides in Hm as [m ->].
    rewrite Nat.even_mul in He. done.
Qed.

Lemma count_even_cons c cs :
  count_even (c :: cs) =
  if Nat.even (length c) then S (count_even cs) else count_even cs.
Proof.
  unfold count_even. destruct (Nat.even (length c)) eqn:He.
  - by rewrite filter_cons_True.
  - rewrite filter_cons_False; [done|congruence].
Qed.

Lemma count_even_snoc cs c :
  count_even (cs ++ [c]) =
  if Nat.even (length c) then S (count_even cs) else count_even cs.
Proof.
  unfold count_even. rewrite filter_app, length_app.
  destruct (Nat.even (length c)) eqn:He.
  - rewrite (filter_cons_True _ c []) by done. simpl. lia.
  - rewrite (filter_cons_False _ c []) by congruence. simpl. lia.
Qed.

Lemma scan_from_run p n :
  valid_perm p n →
  ∀ d i V cs fuel,
    n - length V ≤ d → 2 * n + 2 ≤ fuel + length V →
    NoDup V → (∀ x, x ∈ V → x < n) → closed p V → i ≤ n →
    (∀ x, x < i → x ∈ V) →
    V = concat cs → Forall (is_cycle p) cs →
    ∃ V' cs',
      scan_from fuel p n i (Some <$> V) (count_even cs)
        = Some (ScanState n (Some <$> V') (count_even cs')) ∧
      V' ≡ₚ seq 0 n ∧ V' = concat cs' ∧ Forall (is_cycle p) cs'.
Proof.
  intros Hp. induction d as [|d IH];
    intros i V cs fuel Hd Hfuel Hnd Hlt Hcl Hin Hbelow HV Hcs.
  all: pose proof (NoDup_lt_length V n Hnd Hlt) as HlenV.
  all: destruct fuel as [|fuel]; [lia|]; cbn [scan_from].
  all: destruct (skip_visited_run V n Hlt (n - i) i (S fuel))
         as (i' & -> & Hii' & Hi'V & Hbetween & Hi'n); [lia..|].
  all: destruct (Nat.leb_spec n i') as [Hge|Hlt'].
  all: try (exists V, cs; assert (i' = n) as -> by lia; split_and!; try done;
            apply NoDup_Permutation; [done|apply NoDup_seq|];
            intros x; rewrite elem_of_seq; split; [intros ?%Hlt; lia|];
            intros [_ Hx]; destruct (decide (x < i)); [auto|apply Hbetween; lia]).
  all: assert (S (length V) ≤ n) as HlenV'
         by (apply (NoDup_lt_length (i' :: V));
             [by apply NoDup_cons|intros x [->|?]%elem_of_cons; auto]).
  { lia. }
  destruct (follow_cycle p n V i' (S fuel))
    as (c & -> & Hc & Hi'c & Hcl' & Hnd' & Hlt''); [done..|lia|].
  rewrite mod2_eqb_even, <-count_even_snoc.
  assert (length c ≠ 0) as Hc0 by (destruct Hc as [? _]; by destruct c).
  destruct (IH i' (V ++ c) (cs ++ [c]) fuel) as (V' & cs' & Hrun & ?).
  - rewrite length_app. lia.
  - rewrite length_app. lia.
  - done.
  - done.
  - done.
  - lia.
  - intros x Hx. apply elem_of_app. left.
    destruct (decide (x < i)); [auto|apply Hbetween; lia].
  - rewrite concat_app. simpl. by rewrite app_nil_r, HV.
  - apply Forall_app. split; [done|]. by apply Forall_singleton.
  - exists V', cs'. done.
Qed.

(** With enough fuel the scan of a permutation of [0, n) stops; it has then
    marked a rearrangement of [0, n), found a cycle decomposition, and counted
    the cycles of even length in it. *)
Lemma scan_perm p n fuel :
  valid_perm p n → 2 * n + 2 ≤ fuel →
  ∃ V cs,
    scan fuel p n = Some (ScanState n (Some <$> V) (count_even cs)) ∧
    V ≡ₚ seq 0 n ∧ V = concat cs ∧ Forall (is_cycle p) cs.
Proof.
  intros Hp Hfuel.
  apply (scan_from_run p n Hp n 0 [] [] fuel); simpl; try done; try lia.
  - apply NoDup_nil_2.
  - intros x Hx. by apply not_elem_of_nil in Hx.
  - intros x y _ Hy. by apply not_elem_of_nil in Hy.
Qed.

(** Every permutation of [0, n) has a cycle decomposition: the one the scan
    walks through. *)
Lemma cycle_decomposition_exists p n :
  valid_perm p n → ∃ cs, cycle_decomposition p cs.
Proof.
  intros Hp.
  destruct (scan_perm p n (2 * n + 2) Hp) as (V & cs & _ & HV & -> & Hcs); [lia|].
  exists cs. split; [done|]. by rewrite HV, (valid_perm_length p n).
Qed.

(** On an array that repeats an index the scan need not stop: on [1, 1, 2]
    index 0 is never marked, and the outer loop goes round for ever. *)
Lemma scan_from_repeated_index fuel evenCycles :
  scan_from fuel [1; 1; 2] 3 0 [Some 1] evenCycles = None.
Proof.
  revert evenCycles. induction fuel as [|fuel IH]; intros evenCycles; [done|].
  cbn. apply IH.
Qed.

Lemma scan_repeated_index fuel : scan fuel [1; 1; 2] 3 = None.
Proof.
  destruct fuel as [|[|fuel]]; [done..|].
  unfold scan. cbn. apply scan_from_repeated_index.
Qed.

(** ** Any two cycle decompositions of a list have the same counts *)

Lemma filter_iff_elem {A} (P Q : A → Prop)
    `{!∀ x, Decision (P x), !∀ x, Decision (Q x)} (l : list A) :
  (∀ x, x ∈ l → P x ↔ Q x) → filter P l = filter Q l.
Proof.
  induction l as [|a l IH]; intros Hiff; [done|].
  assert (filter P l = filter Q l) as Hl.
  { apply IH. intros x Hx. apply Hiff. by right. }
  destruct (decide (P a)) as [Ha|Ha].
  - rewrite !filter_cons_True, Hl; [done| |done]. apply Hiff; [by left|done].
  - rewrite !filter_cons_False, Hl; [done| |done].
    intros HQ. apply Ha, Hiff; [by left|done].
Qed.

Lemma filter_none {A} (P : A → Prop) `{!∀ x, Decision (P x)} (l : list A) :
  (∀ x, x ∈ l → ¬ P x) → filter P l = [].
Proof.
  induction l as [|a l IH]; intros Hno; [done|].
  rewrite filter_cons_False by (apply Hno; by left).
  apply IH. intros x Hx. apply Hno. by right.
Qed.

Section one_cycle.
Context (p c : list nat) (Hc : is_cycle p c).

Lemma is_cycle_lt x : x ∈ c → x < length p.
Proof.
  destruct Hc as (Hne & _ & Hnext).
  intros [k Hk]%list_elem_of_lookup. apply (lookup_lt_is_Some_1 p).
  rewrite (Hnext _ _ Hk). apply lookup_lt_is_Some_2, Nat.mod_upper_bound.
  by destruct c.
Qed.

Lemma is_cycle_length : 0 < length c ∧ length c ≤ length p.
Proof.
  split.
  - destruct Hc as (Hne & _). destruct c; [done|simpl; lia].
  - apply NoDup_lt_length; [apply Hc|apply is_cycle_lt].
Qed.

(** Going [k] steps along [p] from the [m]-th entry of the cycle ends at
    entry [m + k], counted around the cycle. *)
Lemma is_cycle_iter m x k :
  c !! m = Some x →
  c !! ((m + k) `mod` length c) = Some (Nat.iter k (λ y, p !!! y) x).
Proof.
  intros Hm. induction k as [|k IH].
  - rewrite Nat.add_0_r, Nat.mod_small; [done|]. by eapply lookup_lt_Some.
  - destruct Hc as (_ & _ & Hnext). specialize (Hnext _ _ IH).
    replace (S ((m + k) `mod` length c)) with (1 + (m + k) `mod` length c)
      in Hnext by done.
    rewrite Nat.Div0.add_mod_idemp_r in Hnext.
    replace (m + S k) with (1 + (m + k)) by lia.
    destruct (lookup_lt_is_Some_2 c ((1 + (m + k)) `mod` length c)) as [w Hw].
    { apply Nat.mod_upper_bound. pose proof is_cycle_length. lia. }
    rewrite Hw in Hnext. rewrite Hw. simpl.
    by rewrite (list_lookup_total_correct _ _ _ Hnext).
Qed.

(** The iterates of [p] at an index of the cycle are the indices of the cycle. *)
Lemma orbit_is_cycle x y :
  x ∈ c → y ∈ orbit p (length p) x ↔ y ∈ c.
Proof.
  intros [m Hm]%list_elem_of_lookup. pose proof is_cycle_length as [HL0 HLn].
  pose proof (lookup_lt_Some _ _ _ Hm) as HmL.
  unfold orbit. rewrite list_elem_of_fmap. split.
  - intros (k & -> & _). eapply list_elem_of_lookup_2, (is_cycle_iter m x k Hm).
  - intros [j Hj]%list_elem_of_lookup.
    pose proof (lookup_lt_Some _ _ _ Hj) as HjL.
    exists ((j + length c - m) `mod` length c). split.
    + pose proof (is_cycle_iter m x ((j + length c - m) `mod` length c) Hm) as Hit.
      rewrite Nat.Div0.add_mod_idemp_r in Hit.
      replace (m + (j + length c - m)) with (j + 1 * length c) in Hit by lia.
      rewrite Nat.Div0.mod_add, Nat.mod_small in Hit by done. congruence.
    + apply elem_of_seq.
      pose proof (Nat.mod_upper_bound (j + length c - m) (length c)). lia.
Qed.

Lemma cycle_len_is_cycle x : x ∈ c → cycle_len p x = length c.
Proof.
  intros Hx. unfold cycle_len. apply Permutation_length, NoDup_Permutation.
  - apply NoDup_remove_dups.
  - apply Hc.
  - intros y. rewrite elem_of_remove_dups. by apply orbit_is_cycle.
Qed.

Lemma leader_is_cycle x :
  x ∈ c → leader p x = true ↔ ∀ y, y ∈ c → x ≤ y.
Proof.
  intros Hx. unfold leader. rewrite forallb_forall. split.
  - intros Hall y Hy. apply Nat.leb_le, Hall, list_elem_of_In.
    by apply orbit_is_cycle.
  - intros Hall y Hy. apply Nat.leb_le, Hall.
    apply list_elem_of_In in Hy. by apply orbit_is_cycle in Hy.
Qed.
End one_cycle.

Lemma list_least (l : list nat) :
  l ≠ [] → ∃ m, m ∈ l ∧ ∀ y, y ∈ l → m ≤ y.
Proof.
  induction l as [|a l IH]; [done|]. intros _.
  destruct l as [|b l].
  - exists a. split; [by left|]. intros y ->%list_elem_of_singleton. done.
  - destruct IH as (m & Hm & Hleast); [done|].
    destruct (decide (a ≤ m)).
    + exists a. split; [by left|].
      intros y [->|Hy]%elem_of_cons; [done|]. specialize (Hleast _ Hy). lia.
    + exists m. split; [by right|].
      intros y [->|Hy]%elem_of_cons; [lia|]. by apply Hleast.
Qed.

(** Every cycle has exactly one leader. *)
Lemma cycle_one_leader p c :
  is_cycle p c → length (filter (λ x, leader p x = true) c) = 1.
Proof.
  intros Hc. destruct (list_least c) as (m & Hm & Hleast); [apply Hc|].
  change 1 with (length [m]). apply Permutation_length, NoDup_Permutation.
  - apply NoDup_filter, Hc.
  - apply NoDup_singleton.
  - intros x. rewrite list_elem_of_filter, list_elem_of_singleton. split.
    + intros [Hl Hx]. pose proof (proj1 (leader_is_cycle p c Hc x Hx) Hl m Hm).
      specialize (Hleast _ Hx). lia.
    + intros ->. split; [|done]. by apply (leader_is_cycle p c Hc).
Qed.

Lemma cycle_even_leader p c :
  is_cycle p c →
  length (filter (λ x, leader p x && Nat.even (cycle_len p x) = true) c) =
  if Nat.even (length c) then 1 else 0.
Proof.
  intros Hc. destruct (Nat.even (length c)) eqn:He.
  - rewrite <-(cycle_one_leader p c Hc). f_equal. apply filter_iff_elem.
    intros x Hx. rewrite (cycle_len_is_cycle p c Hc x Hx), He.
    by rewrite andb_true_r.
  - rewrite filter_none; [done|].
    intros x Hx. rewrite (cycle_len_is_cycle p c Hc x Hx), He.
    by rewrite andb_false_r.
Qed.

Lemma leaders_concat p cs :
  Forall (is_cycle p) cs →
  length (filter (λ x, leader p x = true) (concat cs)) = length cs ∧
  length (filter (λ x, leader p x && Nat.even (cycle_len p x) = true)
                 (concat cs)) = count_even cs.
Proof.
  induction 1 as [|c cs Hc _ [IH1 IH2]]; [done|].
  simpl. rewrite !filter_app, !length_app, IH1, IH2.
  rewrite cycle_one_leader, cycle_even_leader, count_even_cons by done.
  split; [done|]. by destruct (Nat.even (length c)).
Qed.

(** The number of cycles, and of even cycles, does not depend on how the
    cycles are listed. *)
Lemma cycle_decomposition_counts p cs :
  cycle_decomposition p cs →
  length cs = num_cycles p ∧ count_even cs = num_even_cycles p.
Proof.
  intros [Hcs Hperm]. destruct (leaders_concat p cs Hcs) as [<- <-].
  unfold num_cycles, num_even_cycles. by rewrite Hperm.
Qed.

(** ** Parity of [n - c] *)

Lemma sign_pow_even (k : nat) : sign_pow k = if Nat.even k then 1%Z else (-1)%Z.
Proof.
  unfold sign_pow. induction k as [|k IH]; [done|].
  rewrite Nat2Z.inj_succ, Z.pow_succ_r, IH by lia.
  rewrite Nat.even_succ, <-Nat.negb_even. by destruct (Nat.even k).
Qed.

Lemma cycles_parity (cs : list (list nat)) :
  Forall (λ c, c ≠ []) cs →
  length cs ≤ length (concat cs) ∧
  Nat.even (length (concat cs) - length cs) = Nat.even (count_even cs).
Proof.
  induction 1 as [|c cs Hc _ [IHle IH]]; [done|].
  rewrite count_even_cons. simpl. rewrite length_app.
  destruct c as [|a c]; [done|]. simpl length. split; [lia|].
  replace (S (length c) + length (concat cs) - S (length cs))
    with (length c + (length (concat cs) - length cs)) by lia.
  rewrite Nat.even_add, IH, Nat.even_succ, <-Nat.negb_even.
  destruct (Nat.even (length c)); cbn [negb eqb];
    rewrite ?Nat.even_succ, <-?Nat.negb_even;
    by destruct (Nat.even (count_even cs)).
Qed.

(** ** The dispatcher and the evaluator *)

Section det_facts.
Context `{Dependencies}.

Lemma matrix_messages_differ (s s' : list nat) :
  square_message s ≠ two_dimensional_message s'.
Proof.
  unfold square_message, two_dimensional_message. intros Heq.
  cbv -[format] in Heq. discriminate Heq.
Qed.

(** *** Running the primitive steps *)

Lemma bind_run {A B} (m : M A) (k : A → M B) w w' a :
  m w = (w', Return a) → (m ≫= k) w = k a w'.
Proof. intros Hm. unfold mbind, M_bind. by rewrite Hm. Qed.

Lemma bind_throw {A B} (m : M A) (k : A → M B) w w' e :
  m w = (w', Throw e) → (m ≫= k) w = (w', Throw e).
Proof. intros Hm. unfold mbind, M_bind. by rewrite Hm. Qed.

Lemma read_run l a w : heap w !! l = Some a → read l w = (w, Return a).
Proof. intros Hl. unfold read. by rewrite Hl. Qed.

Lemma entry_index2 a i j u w :
  entry a i j = Some u → index2 a i j w = (w, Return u).
Proof.
  unfold entry, index2, index. destruct (a !! i) as [[?|row]|]; try done.
  by intros ->.
Qed.

Lemma row_index2 a i j row w :
  a !! i = Some (Arr row) → index2 a i j w = (w, Return (index row j)).
Proof. unfold index2. by intros ->. Qed.

Lemma row_get2 l a i j row w :
  heap w !! l = Some a → a !! i = Some (Arr row) →
  get2 l i j w = (w, Return (index row j)).
Proof.
  intros Hl Hi. unfold get2. rewrite (bind_run _ _ _ _ _ (read_run _ _ _ Hl)).
  by apply row_index2.
Qed.

(** *** What a computation may write and record *)

Lemma writes_only_bind {A B} l (m : M A) (k : A → M B) :
  writes_only l m → (∀ a, writes_only l (k a)) → writes_only l (m ≫= k).
Proof.
  intros Hm Hk w l0 Hl0. specialize (Hm w l0 Hl0).
  unfold mbind, M_bind. destruct (m w) as [w' [a|e|]]; simpl in *; try done.
  by rewrite (Hk a w' l0 Hl0).
Qed.

Lemma writes_only_same {A} l (m : M A) :
  (∀ w, heap (m w).1 = heap w) → writes_only l m.
Proof. intros Hm w l0 _. by rewrite Hm. Qed.

Lemma records_only_bind {A B} P (m : M A) (k : A → M B) :
  records_only P m → (∀ a, records_only P (k a)) → records_only P (m ≫= k).
Proof.
  intros Hm Hk w. destruct (Hm w) as (cs & Hcs & HP).
  unfold mbind, M_bind. destruct (m w) as [w' [a|e|]]; simpl in *; eauto.
  destruct (Hk a w') as (cs' & Hcs' & HP'). exists (cs ++ cs'). split.
  - by rewrite Hcs', Hcs, app_assoc.
  - by apply Forall_app.
Qed.

Lemma records_only_same {A} P (m : M A) :
  (∀ w, calls (m w).1 = calls w) → records_only P m.
Proof. intros Hm w. exists []. by rewrite app_nil_r, Hm. Qed.

Lemma records_only_record P c : P c → records_only P (record c).
Proof. intros Hc w. exists [c]. split; [done|]. by apply Forall_singleton. Qed.

Lemma index2_same a i j w : (index2 a i j w).1 = w.
Proof. unfold index2. by destruct (a !! i) as [[?|?]|]. Qed.

Lemma read_same l w : (read l w).1 = w.
Proof. unfold read. by destruct (heap w !! l). Qed.

Lemma get2_same l i j w : (get2 l i j w).1 = w.
Proof.
  unfold get2, mbind, M_bind, read.
  destruct (heap w !! l); [apply index2_same|done].
Qed.

Lemma writes_only_ret {A} l (a : A) : writes_only l (mret a).
Proof. by apply writes_only_same. Qed.

Lemma writes_only_throw {A} l e : writes_only l (throw (A := A) e).
Proof. by apply writes_only_same. Qed.

Lemma writes_only_out_of_fuel {A} l : writes_only l (out_of_fuel (A := A)).
Proof. by apply writes_only_same. Qed.

Lemma writes_only_record l c : writes_only l (record c).
Proof. by apply writes_only_same. Qed.

Lemma writes_only_read l l' : writes_only l (read l').
Proof. apply writes_only_same. intros w. by rewrite read_same. Qed.

Lemma writes_only_index2 l a i j : writes_only l (index2 a i j).
Proof. apply writes_only_same. intros w. by rewrite index2_same. Qed.

Lemma writes_only_get2 l l' i j : writes_only l (get2 l' i j).
Proof. apply writes_only_same. intros w. by rewrite get2_same. Qed.

Lemma writes_only_write l a : writes_only l (write l a).
Proof. intros w l0 Hl0. simpl. by rewrite lookup_insert_ne. Qed.

Lemma records_only_ret {A} P (a : A) : records_only P (mret a).
Proof. by apply records_only_same. Qed.

Lemma records_only_throw {A} P e : records_only P (throw (A := A) e).
Proof. by apply records_only_same. Qed.

Lemma records_only_out_of_fuel {A} P : records_only P (out_of_fuel (A := A)).
Proof. by apply records_only_same. Qed.

Lemma records_only_read P l : records_only P (read l).
Proof. apply records_only_same. intros w. by rewrite read_same. Qed.

Lemma records_only_index2 P a i j : records_only P (index2 a i j).
Proof. apply records_only_same. intros w. by rewrite index2_same. Qed.

Lemma records_only_get2 P l i j : records_only P (get2 l i j).
Proof. apply records_only_same. intros w. by rewrite get2_same. Qed.

Lemma records_only_write P l a : records_only P (write l a).
Proof. by apply records_only_same. Qed.

Lemma raises_only_bind {A B} P (m : M A) (k : A → M B) :
  raises_only P m → (∀ a, raises_only P (k a)) → raises_only P (m ≫= k).
Proof.
  intros Hm Hk w e. specialize (Hm w). unfold mbind, M_bind.
  destruct (m w) as [w' [a|e'|]]; simpl in *; [apply Hk| |done].
  intros [= ->]. by apply Hm.
Qed.

Lemma raises_only_ret {A} P (a : A) : raises_only P (mret a).
Proof. by intros w e. Qed.

Lemma raises_only_out_of_fuel {A} P : raises_only P (out_of_fuel (A := A)).
Proof. by intros w e. Qed.

Lemma raises_only_throw {A} (P : error → Prop) e :
  P e → raises_only P (throw (A := A) e).
Proof. intros He w e' [= <-]. done. Qed.

Lemma raises_only_record P c : raises_only P (record c).
Proof. by intros w e. Qed.

Lemma raises_only_write P l a : raises_only P (write l a).
Proof. by intros w e. Qed.

Lemma raises_only_read l : raises_only not_RangeError (read l).
Proof.
  intros w e. unfold read. destruct (heap w !! l); [done|].
  by intros [= <-] msg.
Qed.

Lemma raises_only_index2 a i j : raises_only not_RangeError (index2 a i j).
Proof.
  intros w e. unfold index2. destruct (a !! i) as [[?|?]|]; try done.
  all: by intros [= <-] msg.
Qed.

Create HintDb effects discriminated.

#[local] Hint Resolve raises_only_ret raises_only_out_of_fuel
  raises_only_record raises_only_write raises_only_read raises_only_index2
  : effects.

#[local] Hint Resolve writes_only_ret writes_only_throw writes_only_out_of_fuel
  writes_only_record writes_only_read writes_only_index2 writes_only_get2
  writes_only_write records_only_ret records_only_throw
  records_only_out_of_fuel records_only_read records_only_index2
  records_only_get2 records_only_write records_only_record : effects.

(** Splits a computation along its binds and closes the leaves with the
    facts about the primitive steps. *)
Ltac effects :=
  repeat match goal with
    | |- writes_only _ (_ ≫= _) => apply writes_only_bind
    | |- records_only _ (_ ≫= _) => apply records_only_bind
    | |- raises_only _ (_ ≫= _) => apply raises_only_bind
    | |- ∀ _, _ => intro
    | |- writes_only _ (if ?b then _ else _) => destruct b
    | |- records_only _ (if ?b then _ else _) => destruct b
    | |- writes_only _ (match ?o with _ => _ end) => destruct o
    | |- records_only _ (match ?o with _ => _ end) => destruct o
    | |- raises_only _ (if ?b then _ else _) => destruct b
    | |- raises_only _ (match ?o with _ => _ end) => destruct o
    end;
  try (apply records_only_record; reflexivity);
  try (apply raises_only_throw; by intros ?);
  eauto with effects.

Lemma writes_only_multiply l a b : writes_only l (call_multiply a b).
Proof. unfold call_multiply. effects. Qed.

Lemma writes_only_subtract l a b : writes_only l (call_subtract a b).
Proof. unfold call_subtract. effects. Qed.

Lemma writes_only_unaryMinus l a : writes_only l (call_unaryMinus a).
Proof. unfold call_unaryMinus. effects. Qed.

Lemma writes_only_lup l : writes_only l (call_lup l).
Proof. unfold call_lup. effects. Qed.

Lemma records_only_multiply a b : records_only work (call_multiply a b).
Proof. unfold call_multiply. effects. Qed.

Lemma records_only_subtract a b : records_only work (call_subtract a b).
Proof. unfold call_subtract. effects. Qed.

Lemma records_only_unaryMinus a : records_only work (call_unaryMinus a).
Proof. unfold call_unaryMinus. effects. Qed.

Lemma records_only_lup l : records_only work (call_lup l).
Proof. unfold call_lup. effects. Qed.

Lemma raises_only_arithmetic :
  (∀ a b, raises_only not_RangeError (call_multiply a b)) ∧
  (∀ a b, raises_only not_RangeError (call_subtract a b)) ∧
  (∀ a, raises_only not_RangeError (call_unaryMinus a)).
Proof. split_and!; by intros. Qed.

Lemma raises_only_get2 l i j : raises_only not_RangeError (get2 l i j).
Proof. unfold get2. effects. Qed.

Lemma raises_only_lup l : raises_only not_RangeError (call_lup l).
Proof. unfold call_lup. effects. Qed.

#[local] Hint Resolve raises_only_get2 raises_only_lup : effects.

#[local] Hint Resolve writes_only_multiply writes_only_subtract
  writes_only_unaryMinus writes_only_lup records_only_multiply
  records_only_subtract records_only_unaryMinus records_only_lup : effects.

Lemma writes_only_diagonal_loop l decomp idx det :
  writes_only l (diagonal_loop decomp idx det).
Proof. revert det. induction idx as [|i idx IH]; intros det; simpl; effects. Qed.

Lemma records_only_diagonal_loop decomp idx det :
  records_only work (diagonal_loop decomp idx det).
Proof. revert det. induction idx as [|i idx IH]; intros det; simpl; effects. Qed.

Lemma raises_only_diagonal_loop decomp idx det :
  raises_only not_RangeError (diagonal_loop decomp idx det).
Proof.
  destruct raises_only_arithmetic as (Hmul & _).
  revert det. induction idx as [|i idx IH]; intros det; simpl; effects.
Qed.

#[local] Hint Resolve writes_only_diagonal_loop records_only_diagonal_loop
  raises_only_diagonal_loop : effects.

(** The evaluator raises no RangeError of its own. *)
Lemma _det_raises fuel l rows cols :
  raises_only not_RangeError (_det fuel l rows cols).
Proof.
  destruct raises_only_arithmetic as (Hmul & Hsub & Hneg).
  unfold _det. effects.
Qed.

(** After recording its own call, the evaluator only records arithmetic and
    decomposition, and it changes the store at most at the array it was
    given. *)
Lemma _det_effects fuel l rows cols :
  writes_only l (_det fuel l rows cols) ∧
  ∀ w, ∃ cs, calls (_det fuel l rows cols w).1 = calls w ++ Call_det rows cols :: cs ∧
             Forall work cs.
Proof.
  unfold _det. split; [effects|].
  intros w. set (rest := if rows =? 1 then _ else _).
  assert (records_only work rest) as Hrest by (subst rest; effects).
  destruct (Hrest (MkWorld (heap w) (calls w ++ [Call_det rows cols])))
    as (cs & Hcs & Hwork).
  exists cs. split; [|done]. unfold mbind, M_bind. simpl.
  destruct (rest _) as [w' [?|?|]]; simpl in *; by rewrite Hcs, <-app_assoc.
Qed.

(** *** The evaluator, size by size *)

Lemma call_multiply_run a b w :
  call_multiply a b w =
  (MkWorld (heap w) (calls w ++ [Call_multiply a b]), Return (multiply a b)).
Proof. done. Qed.

Lemma call_subtract_run a b w :
  call_subtract a b w =
  (MkWorld (heap w) (calls w ++ [Call_subtract a b]), Return (subtract a b)).
Proof. done. Qed.

Lemma call_unaryMinus_run a w :
  call_unaryMinus a w =
  (MkWorld (heap w) (calls w ++ [Call_unaryMinus a]), Return (unaryMinus a)).
Proof. done. Qed.

Lemma record_run c w :
  record c w = (MkWorld (heap w) (calls w ++ [c]), Return tt).
Proof. done. Qed.

(** Runs the next step of the goal: a recorded call or a read
    [matrix[i][j]]. *)
Ltac run_step :=
  erewrite bind_run by
    first [ apply record_run | apply call_multiply_run
          | apply call_subtract_run | apply call_unaryMinus_run
          | eapply row_get2; [simpl; eassumption|eassumption]
          | eapply entry_index2; eassumption ].


Lemma _det_2x2 fuel l cols a r0 r1 w :
  heap w !! l = Some a → a !! 0 = Some (Arr r0) → a !! 1 = Some (Arr r1) →
  _det fuel l 2 cols w =
  (MkWorld (heap w)
     (calls w ++ [Call_det 2 cols;
                  Call_multiply (index r0 0) (index r1 1);
                  Call_multiply (index r1 0) (index r0 1);
                  Call_subtract (multiply (index r0 0) (index r1 1))
                                (multiply (index r1 0) (index r0 1))]),
   Return (VJs (subtract (multiply (index r0 0) (index r1 1))
                         (multiply (index r1 0) (index r0 1))))).
Proof.
  intros Hl H0 H1. unfold _det. simpl. do 8 run_step.
  simpl. by rewrite <-!app_assoc.
Qed.

Lemma call_lup_run l a a' decomp w :
  heap w !! l = Some a → lup a = (a', inr decomp) →
  call_lup l w =
  (MkWorld (<[l := a']> (heap w)) (calls w ++ [Call_lup l]), Return decomp).
Proof.
  intros Hl Hlup. unfold call_lup. run_step.
  erewrite bind_run by (apply read_run; simpl; eassumption).
  rewrite Hlup. simpl. done.
Qed.

Lemma diagonal_loop_run decomp idx us :
  Forall2 (λ i u, entry (U decomp) i i = Some u) idx us →
  ∀ d w, ∃ w', diagonal_loop decomp idx d w = (w', Return (foldl multiply d us)).
Proof.
  induction 1 as [|i u idx us Hi _ IH]; intros d w; simpl; [by eexists|].
  do 2 run_step. apply IH.
Qed.

Lemma _det_general fuel l n cols a a' decomp d0 ds st w :
  heap w !! l = Some a → n ≠ 1 → n ≠ 2 →
  lup a = (a', inr decomp) →
  diagonal (U decomp) n = Some (d0 :: ds) →
  scan fuel (p decomp) n = Some st →
  ∃ w', _det fuel l n cols w =
        (w', Return (VJs (if (sc_evenCycles st mod 2) =? 0
                          then foldl multiply d0 ds
                          else unaryMinus (foldl multiply d0 ds)))).
Proof.
  intros Hl Hn1 Hn2 Hlup Hdiag Hscan. unfold _det.
  apply Nat.eqb_neq in Hn1, Hn2. rewrite Hn1, Hn2. run_step.
  erewrite bind_run by (eapply call_lup_run; [simpl; eassumption|eassumption]).
  unfold diagonal in Hdiag. apply mapM_Some in Hdiag.
  destruct n as [|n]; [inversion Hdiag|]. simpl in Hdiag.
  apply Forall2_cons_1 in Hdiag as [Hd0 Hds]. run_step.
  replace (S n - 1) with n by lia.
  edestruct (diagonal_loop_run decomp (seq 1 n) ds Hds d0) as [w' Hloop].
  erewrite bind_run by apply Hloop. rewrite Hscan.
  destruct (_ =? 0); [by eexists|]. run_step. by eexists.
Qed.

(** *** The dispatcher, shape by shape *)

Lemma det_VArray fuel l a w :
  heap w !! l = Some a →
  det fuel (VArray l) w = det fuel (VMatrix (MkMatrix (matrix_size a) l)) w.
Proof.
  intros Hl. unfold det, det_Array_Matrix, matrix, mbind, M_bind, read.
  by rewrite Hl.
Qed.

Lemma det_VArray_dangling fuel l w :
  heap w !! l = None → det fuel (VArray l) w = (w, Throw TypeError).
Proof.
  intros Hl. unfold det, det_Array_Matrix, matrix, mbind, M_bind, read.
  by rewrite Hl.
Qed.

(** A value with a reported size is held directly, or [det] treats it as
    the Matrix of that size over its backing array. *)
Lemma det_via_matrix fuel x w size :
  reported_size w x = Some size →
  (∃ v, x = VJs v ∧ size = []) ∨
  (∃ l, det fuel x w = det fuel (VMatrix (MkMatrix size l)) w ∧
        backing w x = heap w !! l ∧ (∀ l', x = VArray l' → is_Some (heap w !! l))).
Proof.
  intros Hsize. destruct x as [v|l|[size' l]]; simpl in *.
  - left. exists v. split; [done|congruence].
  - right. exists l. destruct (heap w !! l) as [a|] eqn:Hl; [|done].
    injection Hsize as <-. split_and!; [by apply det_VArray|done|eauto].
  - right. exists l. injection Hsize as ->. split_and!; [done..|]. intros; done.
Qed.

Lemma det_Matrix_rank_0 fuel l w :
  det fuel (VMatrix (MkMatrix [] l)) w = clone (VMatrix (MkMatrix [] l)) w.
Proof. done. Qed.

Lemma det_Matrix_rank_1 fuel len l w :
  det fuel (VMatrix (MkMatrix [len] l)) w =
  if len =? 1 then
    match heap w !! l with
    | Some a => (w, Return (VJs (index a 0)))
    | None => (w, Throw TypeError)
    end
  else (w, Throw (RangeError (square_message [len]))).
Proof.
  unfold det, det_Array_Matrix, mbind, M_bind, read. simpl.
  destruct (len =? 1); [|done]. by destruct (heap w !! l).
Qed.

Lemma det_Matrix_rank_2 fuel rows cols l w :
  det fuel (VMatrix (MkMatrix [rows; cols] l)) w =
  if rows =? cols then
    match heap w !! l with
    | Some a =>
        _det fuel (fresh (dom (heap w))) rows cols
          (MkWorld (<[fresh (dom (heap w)) := a]> (heap w)) (calls w))
    | None => (w, Throw TypeError)
    end
  else (w, Throw (RangeError (square_message [rows; cols]))).
Proof.
  unfold det, det_Array_Matrix, mbind, M_bind. simpl.
  destruct (rows =? cols); [|done].
  unfold clone_method, clone, alloc, read, mbind, M_bind. simpl.
  by destruct (heap w !! l).
Qed.

Lemma det_Matrix_rank_3 fuel s0 s1 s2 size l w :
  det fuel (VMatrix (MkMatrix (s0 :: s1 :: s2 :: size) l)) w =
  (w, Throw (RangeError (two_dimensional_message (s0 :: s1 :: s2 :: size)))).
Proof. done. Qed.

Lemma new_calls_app {A} (m : M A) w cs :
  calls (m w).1 = calls w ++ cs → new_calls m w = cs.
Proof. intros Hcs. unfold new_calls. by rewrite Hcs, drop_app_length. Qed.

Lemma new_calls_same {A} (m : M A) w :
  calls (m w).1 = calls w → new_calls m w = [].
Proof. intros Hcs. apply new_calls_app. by rewrite app_nil_r. Qed.

(** What [det] does on a Matrix of size [n; n] over a live array. *)
Lemma det_square fuel x w n a :
  reported_size w x = Some [n; n] → backing w x = Some a →
  ∃ l w1, det fuel x w = _det fuel l n n w1 ∧
          heap w1 = <[l := a]> (heap w) ∧ calls w1 = calls w ∧
          heap w !! l = None.
Proof.
  intros Hsize Hback.
  destruct (det_via_matrix fuel x w _ Hsize) as [(v & -> & ?)|(l & -> & Hl & _)];
    [done|].
  rewrite Hback in Hl. rewrite det_Matrix_rank_2, Nat.eqb_refl, <-Hl.
  eexists _, _. split_and!; [done..|].
  apply (not_elem_of_dom (D := gset loc)), is_fresh.
Qed.

(** C5: when the reported size has three or more dimensions, [det] raises
    the RangeError whose message says the matrix must be two dimensional and
    quotes that size, and it does so with the store and the record of calls
    as they were: no arithmetic, no decomposition, no evaluator. *)
Theorem det_rank_3_or_more fuel x w size :
  reported_size w x = Some size → 3 ≤ length size →
  det fuel x w = (w, Throw (RangeError (two_dimensional_message size))).
Proof.
  intros Hsize Hrank.
  destruct x as [v|l|m]; simpl in Hsize.
  - injection Hsize as <-. simpl in Hrank. lia.
  - destruct (heap w !! l) as [a|] eqn:Hl; [|done]. injection Hsize as <-.
    unfold det, det_Array_Matrix, matrix, read, mbind, M_bind, mret, M_ret.
    rewrite Hl. simpl.
    destruct (matrix_size a) as [|s0 [|s1 [|s2 size]]]; simpl in *; try lia; done.
  - injection Hsize as <-.
    unfold det, det_Array_Matrix, mbind, M_bind, mret, M_ret. simpl.
    destruct (m_size m) as [|s0 [|s1 [|s2 size]]]; simpl in *; try lia; done.
Qed.

(** C3: on a 2 x 2 input [det] returns
    [subtract(multiply(a00, a11), multiply(a10, a01))]; the calls it records
    are the evaluator, the two products and the difference, in that order,
    so the decomposition is not called. *)
Theorem det_2x2_closed_form fuel x w a r0 r1 :
  reported_size w x = Some [2; 2] → backing w x = Some a →
  a !! 0 = Some (Arr r0) → a !! 1 = Some (Arr r1) →
  (det fuel x w).2 =
    Return (VJs (subtract (multiply (index r0 0) (index r1 1))
                          (multiply (index r1 0) (index r0 1)))) ∧
  new_calls (det fuel x) w =
    [Call_det 2 2;
     Call_multiply (index r0 0) (index r1 1);
     Call_multiply (index r1 0) (index r0 1);
     Call_subtract (multiply (index r0 0) (index r1 1))
                   (multiply (index r1 0) (index r0 1))].
Proof.
  intros Hsize Hback H0 H1.
  destruct (det_square fuel x w 2 a Hsize Hback) as (l & w1 & Hdet & Hh & Hc & _).
  assert (heap w1 !! l = Some a) as Hl by (by rewrite Hh, lookup_insert_eq).
  pose proof (_det_2x2 fuel l 2 a r0 r1 w1 Hl H0 H1) as Hrun.
  split.
  - by rewrite Hdet, Hrun.
  - apply new_calls_app. by rewrite Hdet, Hrun, <-Hc.
Qed.



(** Either [det] records nothing, or the size is [n; n] and it records the
    evaluator on [n] rows and [n] columns, followed by arithmetic and
    decomposition only. *)
Lemma det_Matrix_calls fuel size l w :
  new_calls (det fuel (VMatrix (MkMatrix size l))) w = [] ∨
  ∃ n cs, size = [n; n] ∧
          new_calls (det fuel (VMatrix (MkMatrix size l))) w = Call_det n n :: cs ∧
          Forall work cs.
Proof.
  destruct size as [|s0 [|s1 [|s2 size]]].
  - left. apply new_calls_same. rewrite det_Matrix_rank_0.
    unfold clone, alloc, read, mbind, M_bind. simpl. by destruct (heap w !! l).
  - left. apply new_calls_same. rewrite det_Matrix_rank_1.
    destruct (s0 =? 1); [|done]. by destruct (heap w !! l).
  - destruct (Nat.eqb_spec s0 s1) as [<-|Hne].
    + destruct (heap w !! l) as [a|] eqn:Hl.
      * right.
        destruct (proj2 (_det_effects fuel (fresh (dom (heap w))) s0 s0)
                    (MkWorld (<[fresh (dom (heap w)) := a]> (heap w)) (calls w)))
          as (cs & Hcs & Hwork).
        exists s0, cs. split_and!; [done| |done].
        apply new_calls_app. by rewrite det_Matrix_rank_2, Nat.eqb_refl, Hl.
      * left. apply new_calls_same. by rewrite det_Matrix_rank_2, Nat.eqb_refl, Hl.
    + left. apply new_calls_same. rewrite det_Matrix_rank_2.
      by destruct (Nat.eqb_spec s0 s1).
  - left. by apply new_calls_same.
Qed.

Lemma det_calls fuel x w :
  new_calls (det fuel x) w = [] ∨
  ∃ n cs, reported_size w x = Some [n; n] ∧
          new_calls (det fuel x) w = Call_det n n :: cs ∧ Forall work cs.
Proof.
  destruct x as [v|l|[size l]].
  - left. by apply new_calls_same.
  - destruct (heap w !! l) as [a|] eqn:Hl.
    + assert (new_calls (det fuel (VArray l)) w =
              new_calls (det fuel (VMatrix (MkMatrix (matrix_size a) l))) w) as ->
        by (unfold new_calls; by rewrite (det_VArray fuel l a w Hl)).
      destruct (det_Matrix_calls fuel (matrix_size a) l w)
        as [?|(n & cs & Heq & ? & ?)]; [by left|right].
      exists n, cs. unfold reported_size. rewrite Hl, <-Heq. done.
    + left. apply new_calls_same. by rewrite det_VArray_dangling.
  - destruct (det_Matrix_calls fuel size l w)
      as [?|(n & cs & -> & ? & ?)]; [by left|right; by exists n, cs].
Qed.

(** C7, as the code has it: whenever [det] calls the evaluator on [rows] and
    [cols], the reported size is [rows; cols] and [rows = cols]; there is
    at least one row unless that size is [0; 0]. *)
Theorem evaluator_called_on_square fuel x w rows cols :
  Call_det rows cols ∈ new_calls (det fuel x) w →
  rows = cols ∧ reported_size w x = Some [rows; cols] ∧
  (reported_size w x ≠ Some [0; 0] → 1 ≤ rows).
Proof.
  destruct (det_calls fuel x w) as [->|(n & cs & Hsize & -> & Hwork)].
  - by intros ?%not_elem_of_nil.
  - intros [[= -> ->]|Hin]%elem_of_cons.
    + split_and!; [done..|]. intros Hne. destruct n; [done|lia].
    + rewrite Forall_forall in Hwork. by specialize (Hwork _ Hin).
Qed.







(** Every RangeError that [det] raises on a Matrix is one of the two of the
    dispatcher. *)
Lemma det_Matrix_errors fuel size l w :
  (non_square size →
   det fuel (VMatrix (MkMatrix size l)) w =
   (w, Throw (RangeError (square_message size)))) ∧
  (3 ≤ length size →
   det fuel (VMatrix (MkMatrix size l)) w =
   (w, Throw (RangeError (two_dimensional_message size)))) ∧
  (∀ message,
     (det fuel (VMatrix (MkMatrix size l)) w).2 = Throw (RangeError message) →
     (non_square size ∧ message = square_message size) ∨
     (3 ≤ length size ∧ message = two_dimensional_message size)).
Proof.
  destruct size as [|s0 [|s1 [|s2 size]]].
  - split_and!.
    + intros [(? & ? & _)|(? & ? & ? & _)]; done.
    + simpl. lia.
    + intros msg. rewrite det_Matrix_rank_0.
      unfold clone, alloc, read, mbind, M_bind. simpl.
      by destruct (heap w !! l).
  - rewrite det_Matrix_rank_1. split_and!.
    + intros [(? & [= <-] & Hne)|(? & ? & ? & _)]; [|done].
      by destruct (Nat.eqb_spec s0 1).
    + simpl. lia.
    + intros msg. destruct (Nat.eqb_spec s0 1) as [->|Hne].
      * by destruct (heap w !! l).
      * intros [= <-]. left. split; [|done]. left. by exists s0.
  - rewrite det_Matrix_rank_2. split_and!.
    + intros [(? & ? & _)|(? & ? & [= <- <-] & Hne)]; [done|].
      by destruct (Nat.eqb_spec s0 s1).
    + simpl. lia.
    + intros msg. destruct (Nat.eqb_spec s0 s1) as [->|Hne].
      * destruct (heap w !! l) as [a|]; [|done].
        intros Hthrow. by destruct (_det_raises fuel _ _ _ _ _ Hthrow msg).
      * intros [= <-]. left. split; [|done]. right. by exists s0, s1.
  - split_and!.
    + intros [(? & ? & _)|(? & ? & ? & _)]; done.
    + done.
    + intros msg [= <-]. right. split; [simpl; lia|done].
Qed.

Lemma det_errors fuel x w size :
  reported_size w x = Some size →
  (non_square size →
   det fuel x w = (w, Throw (RangeError (square_message size)))) ∧
  (3 ≤ length size →
   det fuel x w = (w, Throw (RangeError (two_dimensional_message size)))) ∧
  (∀ message,
     (det fuel x w).2 = Throw (RangeError message) →
     (non_square size ∧ message = square_message size) ∨
     (3 ≤ length size ∧ message = two_dimensional_message size)).
Proof.
  intros Hsize.
  destruct (det_via_matrix fuel x w _ Hsize) as [(v & -> & ->)|(l & -> & _)].
  - split_and!.
    + intros [(? & ? & _)|(? & ? & ? & _)]; done.
    + simpl. lia.
    + done.
  - apply det_Matrix_errors.
Qed.

(** C4: [det] fails with the "must be square" error exactly on the sizes
    [len] with [len] other than 1 and [rows; cols] with [rows] other than
    [cols]; the message then quotes the reported size, and the store and the
    record of calls are as before. *)
Theorem det_square_error_iff fuel x w size :
  reported_size w x = Some size →
  ((∃ s, (det fuel x w).2 = Throw (RangeError (square_message s))) ↔
   non_square size) ∧
  (non_square size →
   det fuel x w = (w, Throw (RangeError (square_message size)))).
Proof.
  intros Hsize. destruct (det_errors fuel x w size Hsize) as (Hsq & _ & Honly).
  split; [split|done].
  - intros [s Hs]. destruct (Honly _ Hs) as [[? _]|[_ Hmsg]]; [done|].
    by destruct (matrix_messages_differ s size).
  - intros Hns. exists size. by rewrite (Hsq Hns).
Qed.

(** C10: the three failures of the dispatcher are all [RangeError]s: the
    vector that is not of length 1 and the matrix that is not square carry
    the "must be square" message, three or more dimensions carry the "must be
    two dimensional" message, the two messages are never equal, and [det]
    raises no other RangeError. *)
Theorem det_failures_are_RangeErrors fuel x w size :
  reported_size w x = Some size →
  ((∃ len, size = [len] ∧ len ≠ 1) →
   (det fuel x w).2 = Throw (RangeError (square_message size))) ∧
  ((∃ rows cols, size = [rows; cols] ∧ rows ≠ cols) →
   (det fuel x w).2 = Throw (RangeError (square_message size))) ∧
  (3 ≤ length size →
   (det fuel x w).2 = Throw (RangeError (two_dimensional_message size))) ∧
  (∀ s s', square_message s ≠ two_dimensional_message s') ∧
  (∀ message,
     (det fuel x w).2 = Throw (RangeError message) →
     (non_square size ∧ message = square_message size) ∨
     (3 ≤ length size ∧ message = two_dimensional_message size)).
Proof.
  intros Hsize. destruct (det_errors fuel x w size Hsize) as (Hsq & Hdim & Honly).
  split_and!.
  - intros Hv. rewrite Hsq; [done|by left].
  - intros Hm. rewrite Hsq; [done|by right].
  - intros Hr. by rewrite Hdim.
  - apply matrix_messages_differ.
  - done.
Qed.

(** C1: on an n x n input with n at least 3, when the decomposition
    succeeds with the diagonal [d0, ds] in [U] and a permutation [p] of
    [0, n), [det] returns the product [d0 * ...] taken from the left with
    [multiply], as it is when the number of even-length cycles of [p] is
    even and under [unaryMinus] when it is odd.  That number is the same for
    every way of listing the cycles of [p]. *)
Theorem det_general_case fuel x w n a a' decomp d0 ds :
  reported_size w x = Some [n; n] → 3 ≤ n → backing w x = Some a →
  lup a = (a', inr decomp) →
  diagonal (U decomp) n = Some (d0 :: ds) →
  valid_perm (p decomp) n →
  2 * n + 2 ≤ fuel →
  (det fuel x w).2 =
    Return (VJs (if Nat.even (num_even_cycles (p decomp))
                 then foldl multiply d0 ds
                 else unaryMinus (foldl multiply d0 ds))) ∧
  (∀ cs, cycle_decomposition (p decomp) cs →
         count_even cs = num_even_cycles (p decomp)).
Proof.
  intros Hsize Hn Hback Hlup Hdiag Hperm Hfuel.
  split; [|intros cs Hcs; by apply cycle_decomposition_counts].
  destruct (det_square fuel x w n a Hsize Hback) as (l & w1 & Hdet & Hh & Hc & _).
  assert (heap w1 !! l = Some a) as Hl by (by rewrite Hh, lookup_insert_eq).
  destruct (scan_perm (p decomp) n fuel Hperm Hfuel)
    as (V & cs & Hscan & HV & Hconcat & Hcycles).
  assert (cycle_decomposition (p decomp) cs) as Hcs.
  { split; [done|]. by rewrite <-Hconcat, HV, (valid_perm_length _ n). }
  apply cycle_decomposition_counts in Hcs as [_ Heven].
  edestruct (_det_general fuel l n n a a' decomp d0 ds) as (w' & Hrun);
    [exact Hl|lia|lia|done..|].
  cbn [sc_evenCycles] in Hrun. rewrite mod2_eqb_even, Heven in Hrun.
  by rewrite Hdet, Hrun.
Qed.

End det_facts.

(** ** Counting the tests of the scan *)









(** ** The scan and the sign of the permutation *)


Lemma count_even_no_fixed_points (cs : list (list nat)) :
  count_even (filter (λ c, length c ≠ 1) cs) = count_even cs.
Proof.
  unfold count_even. rewrite list_filter_filter. f_equal.
  apply list_filter_iff. intros c. split; [by intros [? _]|].
  intros He. split; [done|]. intros H1. by rewrite H1 in He.
Qed.

(** C2: for a permutation [p] of [0, n) and any decomposition [cs] of it
    into cycles, the counter [evenCycles] that the scan ends with is the
    number of even-length cycles of [cs], the test [evenCycles % 2 === 0] of
    the code holds exactly when [(-1)^(n - c)] is 1, [c] being the number of
    cycles, and leaving out the cycles of length 1 does not change the
    count. *)
Theorem even_cycle_rule_is_sign p n cs fuel :
  valid_perm p n → cycle_decomposition p cs → 2 * n + 2 ≤ fuel →
  ∃ st, scan fuel p n = Some st ∧
        sc_evenCycles st = count_even cs ∧
        sign_pow (n - length cs) =
          (if (sc_evenCycles st mod 2) =? 0 then 1%Z else (-1)%Z) ∧
        count_even (filter (λ c, length c ≠ 1) cs) = count_even cs.
Proof.
  intros Hp Hcs Hfuel.
  destruct (scan_perm p n fuel Hp Hfuel) as (V & cs' & -> & HV & Hconcat & Hcycles).
  assert (cycle_decomposition p cs') as Hcs'.
  { split; [done|]. by rewrite <-Hconcat, HV, (valid_perm_length _ n). }
  apply cycle_decomposition_counts in Hcs' as [_ Heven'].
  pose proof (cycle_decomposition_counts p cs Hcs) as [_ Heven].
  eexists. split; [done|]. cbn [sc_evenCycles]. rewrite Heven', <-Heven.
  split_and!; [done| |apply count_even_no_fixed_points].
  rewrite mod2_eqb_even, sign_pow_even.
  destruct Hcs as [Hall Hperm].
  destruct (cycles_parity cs) as [_ Hpar].
  { eapply Forall_impl; [done|]. by intros c [? _]. }
  rewrite Hperm, length_seq, (valid_perm_length p n Hp) in Hpar.
  by rewrite Hpar.
Qed.

(** ** The statements at work on integer matrices *)

Section numbers_examples.
Import Numbers.
#[local] Existing Instance numbers.

Lemma swap_is_perm : valid_perm [1; 0; 2] 3.
Proof. apply perm_swap. Qed.

Lemma swap_cycles : cycle_decomposition [1; 0; 2] [[1; 0]; [2]].
Proof.
  split; [|apply perm_swap].
  repeat apply Forall_cons_2; [| |apply Forall_nil_2].
  - split_and!; [done| |].
    + apply NoDup_cons. split; [|apply NoDup_singleton].
      intros Hin%list_elem_of_singleton. lia.
    + intros [|[|k]] x [= <-]; reflexivity.
  - split_and!; [done|apply NoDup_singleton|].
    intros [|k] x [= <-]; reflexivity.
Qed.

(** [det([[0,1,0],[1,0,0],[0,0,1]])] is [-1]: the product of the diagonal of
    [U] is 1 and the permutation has one cycle of even length. *)
Lemma det_general_case_witness :
  (det 8 (VArray 1%positive)
       (store [rows [[0; 1; 0]; [1; 0; 0]; [0; 0; 1]]%Z])).2 =
  Return (VJs (Elem (Num (-1)))).
Proof.
  edestruct (det_general_case 8 (VArray 1%positive)
               (store [rows [[0; 1; 0]; [1; 0; 0]; [0; 0; 1]]%Z]) 3)
    as [Hdet _].
  - reflexivity.
  - lia.
  - reflexivity.
  - reflexivity.
  - reflexivity.
  - apply swap_is_perm.
  - simpl. lia.
  - exact Hdet.
Defined.

Lemma even_cycle_rule_is_sign_witness :
  ∃ st, scan 8 [1; 0; 2] 3 = Some st ∧
        sc_evenCycles st = 1 ∧
        sign_pow (3 - 2) = (-1)%Z.
Proof.
  destruct (even_cycle_rule_is_sign [1; 0; 2] 3 [[1; 0]; [2]] 8
              swap_is_perm swap_cycles)
    as (st & Hst & Heven & Hsign & _); [simpl; lia|].
  exists st. split_and!; [done|done|].
  rewrite Heven in Hsign. exact Hsign.
Defined.


(** [det([[1, 2], [3, 4]])] is [-2]. *)
Lemma det_2x2_closed_form_witness :
  (det 0 (VArray 1%positive) (store [rows [[1; 2]; [3; 4]]%Z])).2 =
  Return (VJs (Elem (Num (-2)))).
Proof.
  edestruct (det_2x2_closed_form 0 (VArray 1%positive)
               (store [rows [[1; 2]; [3; 4]]%Z])) as [Hdet _].
  - reflexivity.
  - reflexivity.
  - reflexivity.
  - reflexivity.
  - exact Hdet.
Defined.

(** A 2 x 3 input is rejected as not square. *)
Lemma det_square_error_iff_witness :
  non_square [2; 3] ∧
  det 0 (VArray 1%positive) (store [rows [[2; 1; 1]; [0; 3; 1]]%Z]) =
  (store [rows [[2; 1; 1]; [0; 3; 1]]%Z],
   Throw (RangeError "Matrix must be square (size: [2, 3])")).
Proof.
  assert (non_square [2; 3]) as Hns by (right; exists 2, 3; split; [done|lia]).
  split; [done|].
  refine (proj2 (det_square_error_iff 0 (VArray 1%positive)
            (store [rows [[2; 1; 1]; [0; 3; 1]]%Z]) [2; 3] _) Hns).
  reflexivity.
Defined.

(** A 1 x 2 x 3 input is rejected as not two dimensional. *)
Lemma det_rank_3_or_more_witness :
  det 0 (VArray 1%positive)
      (store [[Arr (rows [[2; 1; 1]; [0; 3; 1]]%Z)]]) =
  (store [[Arr (rows [[2; 1; 1]; [0; 3; 1]]%Z)]],
   Throw (RangeError "Matrix must be two dimensional (size: [1, 2, 3])")).
Proof.
  refine (det_rank_3_or_more 0 (VArray 1%positive)
            (store [[Arr (rows [[2; 1; 1]; [0; 3; 1]]%Z)]]) [1; 2; 3] _ _).
  - reflexivity.
  - simpl. lia.
Defined.


(** C7, as stated, fails: a Matrix that reports the size [0; 0] reaches the
    evaluator with no row at all. *)
Lemma evaluator_called_with_no_rows :
  ¬ (∀ rows cols,
       Call_det rows cols ∈
         new_calls (det 0 (VMatrix (MkMatrix [0; 0] 1%positive))) (store [[]]) →
       rows = cols ∧ 1 ≤ rows).
Proof.
  intros Hall. destruct (Hall 0 0) as [_ Hrows]; [|lia].
  vm_compute. apply list_elem_of_here.
Qed.

Lemma evaluator_called_on_square_witness :
  2 = 2 ∧
  reported_size (store [rows [[1; 2]; [3; 4]]%Z]) (VArray 1%positive) =
  Some [2; 2] ∧
  (reported_size (store [rows [[1; 2]; [3; 4]]%Z]) (VArray 1%positive) ≠
   Some [0; 0] → 1 ≤ 2).
Proof.
  apply (evaluator_called_on_square 0 (VArray 1%positive)
           (store [rows [[1; 2]; [3; 4]]%Z]) 2 2).
  vm_compute. apply list_elem_of_here.
Defined.

(** The decomposition of the instance overwrites the array it is given; the
    caller's array is as before all the same. *)
Example lup_overwrites_the_copy :
  heap (det 8 (VArray 1%positive)
            (store [rows [[0; 1; 0]; [1; 0; 0]; [0; 0; 1]]%Z])).1
    !! 2%positive =
  Some (rows [[1; 0; 0]; [0; 1; 0]; [0; 0; 1]]%Z).
Proof. reflexivity. Qed.

Lemma det_failures_are_RangeErrors_witness :
  (det 0 (VArray 1%positive) (store [[Elem (Num 1); Elem (Num 2)]])).2 =
    Throw (RangeError "Matrix must be square (size: [2])") ∧
  (det 0 (VArray 1%positive) (store [rows [[2; 1; 1]; [0; 3; 1]]%Z])).2 =
    Throw (RangeError "Matrix must be square (size: [2, 3])") ∧
  (det 0 (VArray 1%positive)
       (store [[Arr (rows [[2; 1; 1]; [0; 3; 1]]%Z)]])).2 =
    Throw (RangeError "Matrix must be two dimensional (size: [1, 2, 3])").
Proof.
  split_and!.
  - refine (proj1 (det_failures_are_RangeErrors 0 (VArray 1%positive)
              (store [[Elem (Num 1); Elem (Num 2)]]) [2] _) _);
      [reflexivity|]. exists 2. split; [done|lia].
  - refine (proj1 (proj2 (det_failures_are_RangeErrors 0 (VArray 1%positive)
              (store [rows [[2; 1; 1]; [0; 3; 1]]%Z]) [2; 3] _)) _);
      [reflexivity|]. exists 2, 3. split; [done|lia].
  - refine (proj1 (proj2 (proj2 (det_failures_are_RangeErrors 0
              (VArray 1%positive)
              (store [[Arr (rows [[2; 1; 1]; [0; 3; 1]]%Z)]]) [1; 2; 3] _))) _);
      [reflexivity|]. simpl. lia.
Defined.

End numbers_examples.

(** ** The caller's array and the conversion *)

Section conversion_examples.
Import Cells.
#[local] Existing Instance cells.


Example det_of_matrix_rows :
  (det_via (H := cells) unwrap_rows 0 (VArray 1%positive)
     (store [[Elem (CMatrix [1; 2]); Elem (CMatrix [3; 4])]%Z])).2 =
  Return (VJs (Elem (CNum (-2)))).
Proof. reflexivity. Qed.


End conversion_examples.

(** * Further properties *)

(** ** The scan on an arbitrary array [p] *)

Lemma skip_visited_stops fuel visited i i' :
  skip_visited fuel visited i = Some i' →
  i ≤ i' ∧ (Some i' ∉ visited) ∧ ∀ x, i ≤ x → x < i' → Some x ∈ visited.
Proof.
  revert i. induction fuel as [|fuel IH]; intros i; [done|]. simpl.
  unfold is_visited. case_bool_decide as Hv.
  - intros Hrun. destruct (IH _ Hrun) as (? & ? & Hbetween).
    split_and!; [lia|done|]. intros x Hx1 Hx2.
    destruct (decide (x = i)) as [->|]; [done|]. apply Hbetween; lia.
  - intros [= <-]. split_and!; [done..|]. intros; lia.
Qed.

Lemma p_at_key_of p j : key_of p (p_at p j).
Proof.
  destruct j as [j|]; simpl; [|by left].
  destruct (p !! j) as [y|] eqn:Hj; [right|by left].
  exists y. split; [by eapply list_elem_of_lookup_2|done].
Qed.

Lemma follow_marks fuel p visited j cycleLen visited' cycleLen' :
  follow fuel p visited j cycleLen = Some (visited', cycleLen') →
  ∃ t, visited' = visited ++ t ∧ Forall (key_of p) t ∧
       cycleLen' = cycleLen + length t.
Proof.
  revert visited j cycleLen. induction fuel as [|fuel IH];
    intros visited j cycleLen; [done|]. simpl.
  destruct (negb _).
  - intros Hrun. destruct (IH _ _ _ Hrun) as (t & -> & Ht & ->).
    exists (p_at p j :: t). split_and!.
    + by rewrite <-app_assoc.
    + apply Forall_cons. split; [apply p_at_key_of|done].
    + simpl. lia.
  - intros [= <- <-]. exists []. by rewrite app_nil_r, Nat.add_0_r.
Qed.

Lemma scan_from_stops fuel p rows i visited evenCycles st :
  scan_from fuel p rows i visited evenCycles = Some st →
  (∀ x, x < i → Some x ∈ visited) →
  rows ≤ sc_i st ∧ (∀ x, x < sc_i st → Some x ∈ sc_visited st) ∧
  ∃ t, sc_visited st = visited ++ t ∧ Forall (key_of p) t.
Proof.
  revert i visited evenCycles. induction fuel as [|fuel IH];
    intros i visited evenCycles; [done|]. cbn [scan_from].
  destruct (skip_visited (S fuel) visited i) as [i'|] eqn:Hskip; [|done].
  apply skip_visited_stops in Hskip as (Hii' & _ & Hbetween).
  assert ((∀ x, x < i → Some x ∈ visited) →
          ∀ x, x < i' → Some x ∈ visited) as Hbelow'.
  { intros Hbelow x Hx. destruct (decide (x < i)); [auto|apply Hbetween; lia]. }
  destruct (Nat.leb_spec rows i') as [Hge|Hlt].
  - intros [= <-] Hbelow. simpl. split_and!; [done|by apply Hbelow'|].
    exists []. by rewrite app_nil_r.
  - destruct (follow (S fuel) p visited (Some i') 0) as [[visited' cycleLen]|]
      eqn:Hfollow; [|done].
    apply follow_marks in Hfollow as (t & -> & Ht & _).
    intros Hrun Hbelow. apply IH in Hrun as (? & ? & t' & Hv & Ht').
    + split_and!; [done..|]. exists (t ++ t'). split; [by rewrite Hv, app_assoc|].
      by apply Forall_app.
    + intros x Hx. apply elem_of_app. left. by apply Hbelow'.
Qed.

(** X1: whenever the scan stops, on whatever array [p], [i] has reached
    [rows], every index below [rows] has been marked, and every key that was
    marked is [undefined] or an entry of [p]. *)
Theorem scan_stops_only_when_all_marked fuel p rows st :
  scan fuel p rows = Some st →
  rows ≤ sc_i st ∧
  (∀ x, x < rows → Some x ∈ sc_visited st) ∧
  Forall (key_of p) (sc_visited st).
Proof.
  intros Hrun. apply scan_from_stops in Hrun as (Hi & Hall & t & Hv & Ht).
  - split_and!; [done| |by rewrite Hv]. intros x Hx. apply Hall. lia.
  - intros x Hx. lia.
Qed.

(** X2: when some index below [rows] is not an entry of [p], the scan does
    not stop, whatever the fuel. *)
Theorem scan_never_stops_on_missing_index fuel p rows k :
  k < rows → k ∉ p → scan fuel p rows = None.
Proof.
  intros Hk Hkp. destruct (scan fuel p rows) as [st|] eqn:Hrun; [|done].
  apply scan_from_stops in Hrun as (Hi & Hall & t & Hv & Ht); [|intros; lia].
  assert (Some k ∈ sc_visited st) as Hin by (apply Hall; lia).
  rewrite Hv in Hin. simpl in Hin. rewrite Forall_forall in Ht.
  destruct (Ht _ Hin) as [?|(y & Hy & [= <-])]; done.
Qed.

(** ** The evaluator beyond 2 x 2, step by step *)

Section det_more.
Context `{Dependencies}.

(** Runs the next recorded call or in-range read of the goal. *)
Ltac next_step :=
  erewrite bind_run by
    first [ apply record_run | apply call_multiply_run
          | apply call_subtract_run | apply call_unaryMinus_run
          | eapply row_get2; [simpl; eassumption|eassumption]
          | eapply entry_index2; eassumption ].

Lemma diagonal_loop_exact decomp idx us :
  Forall2 (λ i u, entry (U decomp) i i = Some u) idx us →
  ∀ d w, diagonal_loop decomp idx d w =
         (MkWorld (heap w) (calls w ++ product_calls d us),
          Return (foldl multiply d us)).
Proof.
  induction 1 as [|i u idx us Hi _ IH]; intros d w; simpl.
  - rewrite app_nil_r. by destruct w.
  - do 2 next_step. rewrite IH. simpl. by rewrite <-app_assoc.
Qed.

(** The evaluator on a size other than 1 and 2, once the decomposition has
    succeeded and the diagonal of [U] is there. *)
Lemma _det_large_exact fuel l n cols a a' decomp d0 ds w :
  heap w !! l = Some a → n ≠ 1 → n ≠ 2 →
  lup a = (a', inr decomp) →
  entry (U decomp) 0 0 = Some d0 →
  Forall2 (λ i u, entry (U decomp) i i = Some u) (seq 1 (n - 1)) ds →
  _det fuel l n cols w =
  let done_calls :=
    calls w ++ Call_det n cols :: Call_lup l :: product_calls d0 ds in
  let product := foldl multiply d0 ds in
  match scan fuel (p decomp) n with
  | None => (MkWorld (<[l := a']> (heap w)) done_calls, OutOfFuel)
  | Some st =>
      if Nat.even (sc_evenCycles st)
      then (MkWorld (<[l := a']> (heap w)) done_calls, Return (VJs product))
      else (MkWorld (<[l := a']> (heap w))
              (done_calls ++ [Call_unaryMinus product]),
            Return (VJs (unaryMinus product)))
  end.
Proof.
  intros Hl Hn1 Hn2 Hlup Hd0 Hds. unfold _det.
  apply Nat.eqb_neq in Hn1, Hn2. rewrite Hn1, Hn2. next_step.
  erewrite bind_run by (eapply call_lup_run; [simpl; eassumption|eassumption]).
  next_step. erewrite bind_run by (by apply diagonal_loop_exact).
  cbn [heap calls]. rewrite <-!app_assoc. cbn [app].
  destruct (scan _ _ _) as [st|]; [|done].
  rewrite mod2_eqb_even. destruct (Nat.even _); [done|]. next_step.
  cbn [heap calls]. rewrite <-!app_assoc. done.
Qed.

Lemma _det_lup_fails fuel l n cols a a' e w :
  heap w !! l = Some a → n ≠ 1 → n ≠ 2 →
  lup a = (a', inl e) →
  _det fuel l n cols w =
  (MkWorld (<[l := a']> (heap w)) (calls w ++ [Call_det n cols; Call_lup l]),
   Throw (LupFailure e)).
Proof.
  intros Hl Hn1 Hn2 Hlup. unfold _det.
  apply Nat.eqb_neq in Hn1, Hn2. rewrite Hn1, Hn2. next_step.
  assert (call_lup l (MkWorld (heap w) (calls w ++ [Call_det n cols])) =
          (MkWorld (<[l := a']> (heap w))
             ((calls w ++ [Call_det n cols]) ++ [Call_lup l]),
           Throw (LupFailure e))) as Hcall.
  { unfold call_lup. next_step.
    erewrite bind_run by (apply read_run; simpl; eassumption).
    rewrite Hlup. done. }
  erewrite bind_throw by apply Hcall. by rewrite <-app_assoc.
Qed.

(** *** Which calls are made *)

Create HintDb call_effects discriminated.

#[local] Hint Resolve writes_only_ret writes_only_throw writes_only_out_of_fuel
  writes_only_record writes_only_read writes_only_index2 writes_only_get2
  writes_only_write records_only_ret records_only_throw
  records_only_out_of_fuel records_only_read records_only_index2
  records_only_get2 records_only_write records_only_record
  records_only_multiply records_only_subtract records_only_unaryMinus
  records_only_lup records_only_diagonal_loop : call_effects.

(** Splits a computation along its binds and branches. *)
Ltac split_effects :=
  repeat match goal with
    | |- records_only _ (_ ≫= _) => apply records_only_bind
    | |- ∀ _, _ => intro
    | |- records_only _ (if ?b then _ else _) => destruct b
    | |- records_only _ (match ?o with _ => _ end) => destruct o
    end;
  try (apply records_only_record; reflexivity);
  eauto with call_effects.

(** The evaluator on one or two rows records the evaluator and then nothing
    but [multiply] and [subtract]. *)
Lemma _det_small_calls fuel l n cols w :
  n = 1 ∨ n = 2 →
  ∃ cs, calls (_det fuel l n cols w).1 = calls w ++ Call_det n cols :: cs ∧
        Forall (λ c, ∀ l', c ≠ Call_lup l') cs.
Proof.
  intros Hn.
  assert (∀ a b, records_only (λ c, ∀ l', c ≠ Call_lup l') (call_multiply a b))
    as Hmul.
  { intros a b w'. exists [Call_multiply a b]. split; [done|].
    by apply Forall_singleton. }
  assert (∀ a b, records_only (λ c, ∀ l', c ≠ Call_lup l') (call_subtract a b))
    as Hsub.
  { intros a b w'. exists [Call_subtract a b]. split; [done|].
    by apply Forall_singleton. }
  set (rest := if n =? 1 then
                 m00 ← get2 l 0 0; mret (VJs (clone_js m00))
               else
                 m00 ← get2 l 0 0; m11 ← get2 l 1 1;
                 x ← call_multiply m00 m11;
                 m10 ← get2 l 1 0; m01 ← get2 l 0 1;
                 y ← call_multiply m10 m01;
                 d ← call_subtract x y; mret (VJs d)).
  assert (records_only (λ c, ∀ l', c ≠ Call_lup l') rest) as Hrest.
  { subst rest. split_effects. }
  assert (_det fuel l n cols = (record (Call_det n cols) ≫= λ _, rest)) as ->.
  { unfold _det, rest. by destruct Hn as [-> | ->]. }
  destruct (Hrest (MkWorld (heap w) (calls w ++ [Call_det n cols])))
    as (cs & Hcs & Hno).
  exists cs. split; [|done]. unfold mbind, M_bind. simpl.
  destruct (rest _) as [w' [?|?|]]; simpl in *; by rewrite Hcs, <-app_assoc.
Qed.

(** The evaluator on any other number of rows first records itself and the
    call of the decomposition. *)
Lemma _det_large_calls fuel l n cols a w :
  heap w !! l = Some a → n ≠ 1 → n ≠ 2 →
  ∃ cs, calls (_det fuel l n cols w).1 =
        calls w ++ Call_det n cols :: Call_lup l :: cs.
Proof.
  intros Hl Hn1 Hn2.
  destruct (lup a) as [a' [e|decomp]] eqn:Hlup.
  - exists []. by rewrite (_det_lup_fails fuel l n cols a a' e w).
  - set (rest := λ decomp : LUP scalar,
        det ← index2 (U decomp) 0 0;
        det ← diagonal_loop decomp (seq 1 (n - 1)) det;
        match scan fuel (p decomp) n with
        | None => out_of_fuel
        | Some st =>
            if (sc_evenCycles st mod 2) =? 0 then mret (VJs det)
            else d ← call_unaryMinus det; mret (VJs d)
        end).
    assert (records_only work (rest decomp)) as Hrest.
    { subst rest. cbv beta. split_effects. }
    assert (_det fuel l n cols w =
            rest decomp (MkWorld (<[l := a']> (heap w))
                           (calls w ++ [Call_det n cols; Call_lup l]))) as ->.
    { unfold _det. apply Nat.eqb_neq in Hn1, Hn2. rewrite Hn1, Hn2. next_step.
      erewrite bind_run
        by (eapply call_lup_run; [simpl; eassumption|eassumption]).
      cbn [heap calls]. by rewrite <-app_assoc. }
    destruct (Hrest (MkWorld (<[l := a']> (heap w))
                       (calls w ++ [Call_det n cols; Call_lup l])))
      as (cs & Hcs & _).
    exists cs. rewrite Hcs. simpl. by rewrite <-app_assoc.
Qed.

(** *** The dispatcher on sizes other than 1 and 2 *)

Lemma diagonal_split a n d0 ds :
  diagonal a n = Some (d0 :: ds) →
  entry a 0 0 = Some d0 ∧
  Forall2 (λ i u, entry a i i = Some u) (seq 1 (n - 1)) ds ∧
  length ds = n - 1.
Proof.
  unfold diagonal. intros Hdiag%mapM_Some.
  destruct n as [|n]; [inversion Hdiag|]. simpl in Hdiag.
  apply Forall2_cons_1 in Hdiag as [Hd0 Hds].
  replace (S n - 1) with n by lia. split_and!; [done..|].
  apply Forall2_length in Hds. by rewrite length_seq in Hds.
Qed.

Lemma product_calls_length d us : length (product_calls d us) = length us.
Proof. revert d. induction us as [|u us IH]; intros d; simpl; [done|]. by rewrite IH. Qed.

Lemma scan_no_rows fuel p : 1 ≤ fuel → scan fuel p 0 = Some (ScanState 0 [] 0).
Proof. destruct fuel as [|fuel]; [lia|done]. Qed.

(** X3: on an [n] x [n] input with [n] other than 1 and 2, when the
    decomposition succeeds and its [U] has all of the diagonal entries
    [U[0][0], ..., U[n-1][n-1]] (so that the product is built without a
    failed read), but its array [p] lacks an index below [n], [det] never
    returns: whatever the fuel, the run is still going when it is used up. *)
Theorem det_never_returns_on_missing_index fuel x w n a a' decomp d0 ds k :
  reported_size w x = Some [n; n] → n ≠ 1 → n ≠ 2 → backing w x = Some a →
  lup a = (a', inr decomp) →
  diagonal (U decomp) n = Some (d0 :: ds) →
  k < n → k ∉ p decomp →
  (det fuel x w).2 = OutOfFuel.
Proof.
  intros Hsize Hn1 Hn2 Hback Hlup Hdiag Hk Hkp.
  destruct (det_square fuel x w n a Hsize Hback) as (l & w1 & -> & Hh & Hc & _).
  assert (heap w1 !! l = Some a) as Hl by (by rewrite Hh, lookup_insert_eq).
  destruct (diagonal_split _ _ _ _ Hdiag) as (Hd0 & Hds & _).
  rewrite (_det_large_exact fuel l n n a a' decomp d0 ds w1) by done.
  by rewrite (scan_never_stops_on_missing_index fuel (p decomp) n k).
Qed.

(** X4: on a size other than 1 and 2, an error raised by the decomposition
    is what [det] ends with; by then only the evaluator and the decomposition
    have been called, the latter on a new array. *)
Theorem det_passes_lup_failure fuel x w n a a' e :
  reported_size w x = Some [n; n] → n ≠ 1 → n ≠ 2 → backing w x = Some a →
  lup a = (a', inl e) →
  (det fuel x w).2 = Throw (LupFailure e) ∧
  ∃ l, heap w !! l = None ∧
       new_calls (det fuel x) w = [Call_det n n; Call_lup l].
Proof.
  intros Hsize Hn1 Hn2 Hback Hlup.
  destruct (det_square fuel x w n a Hsize Hback) as (l & w1 & Hdet & Hh & Hc & Hnew).
  assert (heap w1 !! l = Some a) as Hl by (by rewrite Hh, lookup_insert_eq).
  pose proof (_det_lup_fails fuel l n n a a' e w1 Hl Hn1 Hn2 Hlup) as Hrun.
  split; [by rewrite Hdet, Hrun|]. exists l. split; [done|].
  apply new_calls_app. by rewrite Hdet, Hrun, <-Hc.
Qed.

(** X5: on an [n] x [n] input with [n] at least 3, when the decomposition
    succeeds, the diagonal of [U] is there and the scan stops, [det] calls
    the evaluator, the decomposition on a new array, [multiply] [n - 1]
    times along the running product, and [unaryMinus] once exactly when the
    count of even cycles is odd; it never calls [subtract].  The store ends
    as it began, plus the new array holding what the decomposition left
    in it. *)
Theorem det_large_calls fuel x w n a a' decomp d0 ds st :
  reported_size w x = Some [n; n] → 3 ≤ n → backing w x = Some a →
  lup a = (a', inr decomp) →
  diagonal (U decomp) n = Some (d0 :: ds) →
  scan fuel (p decomp) n = Some st →
  ∃ l, heap w !! l = None ∧
       new_calls (det fuel x) w =
         Call_det n n :: Call_lup l :: product_calls d0 ds ++
         (if Nat.even (sc_evenCycles st) then []
          else [Call_unaryMinus (foldl multiply d0 ds)]) ∧
       length (product_calls d0 ds) = n - 1 ∧
       heap (det fuel x w).1 = <[l := a']> (heap w).
Proof.
  intros Hsize Hn Hback Hlup Hdiag Hscan.
  destruct (det_square fuel x w n a Hsize Hback) as (l & w1 & Hdet & Hh & Hc & Hnew).
  assert (heap w1 !! l = Some a) as Hl by (by rewrite Hh, lookup_insert_eq).
  destruct (diagonal_split _ _ _ _ Hdiag) as (Hd0 & Hds & Hlen).
  pose proof (_det_large_exact fuel l n n a a' decomp d0 ds w1 Hl
                ltac:(lia) ltac:(lia) Hlup Hd0 Hds) as Hrun.
  rewrite Hscan in Hrun. cbv zeta in Hrun. rewrite Hh, Hc in Hrun.
  rewrite insert_insert_eq in Hrun.
  exists l. split; [done|]. rewrite product_calls_length.
  destruct (Nat.even (sc_evenCycles st)).
  - split_and!; [|done|by rewrite Hdet, Hrun].
    apply new_calls_app. rewrite Hdet, Hrun. simpl. by rewrite app_nil_r.
  - split_and!; [|done|by rewrite Hdet, Hrun].
    apply new_calls_app. rewrite Hdet, Hrun. simpl. by rewrite <-app_assoc.
Qed.

(** X6: a Matrix that reports the size [0; 0] is not rejected: [det] calls
    the decomposition on a copy and then reads [U[0][0]].  When [U] has no
    row the read raises [TypeError]; when the entry is there it is returned
    as it is, with no arithmetic, whatever [p] is. *)
Theorem det_empty_matrix fuel x w a a' decomp :
  reported_size w x = Some [0; 0] → backing w x = Some a →
  lup a = (a', inr decomp) →
  (U decomp = [] → (det fuel x w).2 = Throw TypeError) ∧
  (∀ d, entry (U decomp) 0 0 = Some d → 1 ≤ fuel →
        (det fuel x w).2 = Return (VJs d) ∧
        ∃ l, new_calls (det fuel x) w = [Call_det 0 0; Call_lup l]).
Proof.
  intros Hsize Hback Hlup.
  destruct (det_square fuel x w 0 a Hsize Hback) as (l & w1 & Hdet & Hh & Hc & _).
  assert (heap w1 !! l = Some a) as Hl by (by rewrite Hh, lookup_insert_eq).
  split.
  - intros HU. rewrite Hdet. unfold _det. simpl. next_step.
    erewrite bind_run
      by (eapply call_lup_run; [simpl; eassumption|eassumption]).
    unfold index2. rewrite HU. done.
  - intros d Hd Hfuel.
    pose proof (_det_large_exact fuel l 0 0 a a' decomp d [] w1 Hl
                  ltac:(lia) ltac:(lia) Hlup Hd ltac:(constructor)) as Hrun.
    rewrite (scan_no_rows fuel _ Hfuel) in Hrun. simpl in Hrun.
    split; [by rewrite Hdet, Hrun|].
    exists l. apply new_calls_app. rewrite Hdet, Hrun. simpl. by rewrite Hc.
Qed.

(** X7: the decomposition is called exactly on the inputs that report a
    size [n; n] with [n] other than 1 and 2 over a live array. *)
Theorem lup_called_iff fuel x w :
  (∃ l, Call_lup l ∈ new_calls (det fuel x) w) ↔
  (∃ n a, reported_size w x = Some [n; n] ∧ n ≠ 1 ∧ n ≠ 2 ∧
          backing w x = Some a).
Proof.
  split.
  - intros [l0 Hin].
    destruct (det_calls fuel x w) as [Hnil|(n & cs & Hsize & Hcs & _)].
    { rewrite Hnil in Hin. by apply not_elem_of_nil in Hin. }
    destruct (backing w x) as [a|] eqn:Hback.
    + exists n, a. split; [done|].
      destruct (det_square fuel x w n a Hsize Hback) as (l & w1 & Hdet & _ & Hc & _).
      destruct (decide (n = 1 ∨ n = 2)) as [Hn|Hn]; [|split_and!; [lia..|done]].
      destruct (_det_small_calls fuel l n n w1 Hn) as (cs' & Hcs' & Hno).
      rewrite Hc, <-Hdet in Hcs'. apply new_calls_app in Hcs'.
      rewrite Hcs' in Hin. apply elem_of_cons in Hin as [?|Hin]; [done|].
      rewrite Forall_forall in Hno. by destruct (Hno _ Hin l0).
    + exfalso. destruct x as [v|l|[size l]]; simpl in Hsize, Hback.
      * done.
      * by rewrite Hback in Hsize.
      * injection Hsize as ->. unfold new_calls in Hin.
        rewrite det_Matrix_rank_2, Nat.eqb_refl, Hback in Hin. simpl in Hin.
        rewrite drop_all in Hin. by apply not_elem_of_nil in Hin.
  - intros (n & a & Hsize & Hn1 & Hn2 & Hback).
    destruct (det_square fuel x w n a Hsize Hback) as (l & w1 & Hdet & Hh & Hc & _).
    assert (heap w1 !! l = Some a) as Hl by (by rewrite Hh, lookup_insert_eq).
    destruct (_det_large_calls fuel l n n a w1 Hl Hn1 Hn2) as (cs & Hcs).
    rewrite Hc, <-Hdet in Hcs. apply new_calls_app in Hcs.
    exists l. rewrite Hcs. apply elem_of_cons. right. apply list_elem_of_here.
Qed.

End det_more.

(** ** Exchanging two entries of the permutation *)

Lemma chain_app p x s t :
  chain p x (s ++ t) ↔ chain p x s ∧ chain p (default x (last s)) t.
Proof.
  revert x. induction s as [|y s IH]; intros x; simpl; [tauto|].
  rewrite IH, default_last_cons. tauto.
Qed.

Lemma chain_of_lookup p x t :
  (∀ m y, t !! m = Some y →
          ∃ prev, (x :: t) !! m = Some prev ∧ p !! prev = Some y) →
  chain p x t.
Proof.
  revert x. induction t as [|z t IH]; intros x Hall; [done|]. simpl. split.
  - destruct (Hall 0 z) as (prev & [= <-] & ?); done.
  - apply IH. intros m y Hm. apply (Hall (S m) y Hm).
Qed.

Lemma is_cycle_rooted p c : is_cycle p c → ∃ z, rooted p z c.
Proof.
  intros (Hne & Hnd & Hnext).
  destruct (last c) as [z|] eqn:Hlast; [|by apply last_None in Hlast].
  exists z. split_and!; [|done..]. apply chain_of_lookup. intros m y Hm.
  pose proof (lookup_lt_Some _ _ _ Hm) as Hlt.
  rewrite last_lookup in Hlast. destruct m as [|m]; simpl.
  - exists z. split; [done|]. rewrite (Hnext _ _ Hlast).
    replace (S (pred (length c))) with (length c) by lia.
    by rewrite Nat.Div0.mod_same.
  - destruct (lookup_lt_is_Some_2 c m) as [prev Hprev]; [lia|].
    exists prev. split; [done|]. rewrite (Hnext _ _ Hprev).
    by rewrite Nat.mod_small by lia.
Qed.

Lemma rooted_is_cycle p z c : rooted p z c → is_cycle p c.
Proof. intros (? & ? & ?). by apply (chain_is_cycle p z). Qed.

(** Any index of a cycle can be made its end. *)
Lemma rooted_rotate p z c x :
  rooted p z c → x ∈ c → ∃ c', rooted p x c' ∧ c' ≡ₚ c.
Proof.
  intros (Hchain & Hlast & Hnd) [c1 [c2 ->]]%list_elem_of_split.
  exists (c2 ++ c1 ++ [x]).
  assert (c2 ++ c1 ++ [x] ≡ₚ c1 ++ x :: c2) as Hperm.
  { rewrite (Permutation_app_comm c2). by rewrite <-app_assoc. }
  split; [|done].
  apply chain_app in Hchain as [Hc1 Hrest]. simpl in Hrest.
  destruct Hrest as [Hx Hc2].
  rewrite last_app_cons, last_cons in Hlast.
  split_and!.
  - apply chain_app. split; [done|].
    assert (default x (last c2) = z) as ->
      by (destruct (last c2); simpl; congruence).
    apply chain_app. by split.
  - by rewrite app_assoc, last_snoc.
  - by rewrite Hperm.
Qed.

(** A walk that ends in [y] only reads [p] at its start and its inner
    indices. *)
Lemma chain_hop p p' r r' s y :
  chain p r (s ++ [y]) → p' !! r' = p !! r →
  (∀ u, u ∈ s → p' !! u = p !! u) →
  chain p' r' (s ++ [y]).
Proof.
  revert r r'. induction s as [|h s IH]; intros r r' Hchain Hr Hs; simpl in *.
  - destruct Hchain as [Hy _]. split; [congruence|done].
  - destruct Hchain as [Hh Hchain]. split; [congruence|].
    apply (IH h h); [done|apply Hs; by left|].
    intros u Hu. apply Hs. by right.
Qed.

Section swap.
Context (p : list nat) (n i j a b : nat).
Context (Hp : valid_perm p n) (Hij : i ≠ j).
Context (Hi : p !! i = Some a) (Hj : p !! j = Some b).

Let p' := <[i := b]> (<[j := a]> p).

Lemma swap_entries_eq : swap_entries i j p = p'.
Proof. unfold swap_entries. by rewrite Hi, Hj. Qed.

Lemma swap_at_i : p' !! i = p !! j.
Proof.
  subst p'. rewrite list_lookup_insert_eq, Hj; [done|].
  rewrite length_insert. by eapply lookup_lt_Some.
Qed.

Lemma swap_at_j : p' !! j = p !! i.
Proof.
  subst p'. rewrite list_lookup_insert_ne by done.
  rewrite list_lookup_insert_eq, Hi; [done|]. by eapply lookup_lt_Some.
Qed.

Lemma swap_elsewhere u : u ≠ i → u ≠ j → p' !! u = p !! u.
Proof. intros. subst p'. by rewrite !list_lookup_insert_ne. Qed.

Lemma swap_length : length p' = length p.
Proof. subst p'. by rewrite !length_insert. Qed.

Lemma swap_valid : valid_perm p' n.
Proof.
  assert (∀ u y, p' !! u = Some y →
                 ∃ u', p !! u' = Some y ∧
                       (u = i ∧ u' = j ∨ u = j ∧ u' = i ∨
                        u ≠ i ∧ u ≠ j ∧ u' = u)) as Hback.
  { intros u y Hu. destruct (decide (u = i)) as [->|];
      [|destruct (decide (u = j)) as [->|]].
    - rewrite swap_at_i in Hu. exists j. tauto.
    - rewrite swap_at_j in Hu. exists i. tauto.
    - rewrite swap_elsewhere in Hu by done. exists u. tauto. }
  assert (∀ u y, p !! u = Some y → ∃ u', p' !! u' = Some y) as Hforth.
  { intros u y Hu. destruct (decide (u = i)) as [->|];
      [|destruct (decide (u = j)) as [->|]].
    - exists j. by rewrite swap_at_j.
    - exists i. by rewrite swap_at_i.
    - exists u. by rewrite swap_elsewhere. }
  unfold valid_perm. rewrite <-Hp. apply NoDup_Permutation.
  - apply NoDup_alt. intros u v y Hu Hv.
    destruct (Hback _ _ Hu) as (u' & Hu' & Hcu).
    destruct (Hback _ _ Hv) as (v' & Hv' & Hcv).
    pose proof (valid_perm_inj p n Hp _ _ _ Hu' Hv'). lia.
  - by eapply valid_perm_NoDup.
  - intros y. rewrite !list_elem_of_lookup. split.
    + intros [u Hu]. destruct (Hback _ _ Hu) as (u' & ? & _). eauto.
    + intros [u Hu]. eauto.
Qed.

(** A cycle through neither [i] nor [j] stays a cycle. *)
Lemma swap_keeps_cycle c :
  is_cycle p c → i ∉ c → j ∉ c → is_cycle p' c.
Proof.
  intros [z (Hchain & Hlast & Hnd)]%is_cycle_rooted Hic Hjc.
  apply (rooted_is_cycle p' z). split_and!; [|done..].
  apply last_Some in Hlast as [s ->].
  assert (∀ u, u ∈ s ++ [z] → p' !! u = p !! u) as Hsame.
  { intros u Hu. apply swap_elsewhere; intros ->; done. }
  apply (chain_hop p p' z z); [done|..].
  - apply Hsame, elem_of_app. right. by left.
  - intros u Hu. apply Hsame, elem_of_app. by left.
Qed.

(** Two cycles, one through [i] and one through [j], become one. *)
Lemma swap_merges s t :
  rooted p i (s ++ [i]) → rooted p j (t ++ [j]) →
  (∀ u, u ∈ s ++ [i] → u ∉ t ++ [j]) →
  rooted p' j ((s ++ [i]) ++ (t ++ [j])).
Proof.
  intros (Hcs & _ & Hnds) (Hct & _ & Hndt) Hdisj.
  assert (∀ u, u ∈ s → p' !! u = p !! u) as Hs.
  { intros u Hu. apply swap_elsewhere; intros ->.
    - apply NoDup_app in Hnds as (_ & Hd & _). apply (Hd _ Hu). by left.
    - apply (Hdisj j); apply elem_of_app; [by left|right; by left]. }
  assert (∀ u, u ∈ t → p' !! u = p !! u) as Ht.
  { intros u Hu. apply swap_elsewhere; intros ->.
    - apply (Hdisj i); apply elem_of_app; [right; by left|by left].
    - apply NoDup_app in Hndt as (_ & Hd & _). apply (Hd _ Hu). by left. }
  split_and!.
  - apply chain_app. split.
    + apply (chain_hop p p' i j); [done|apply swap_at_j|done].
    + rewrite last_snoc. simpl.
      apply (chain_hop p p' j i); [done|apply swap_at_i|done].
  - by rewrite app_assoc, last_snoc.
  - apply NoDup_app. by split_and!.
Qed.

(** One cycle through both [i] and [j] becomes two. *)
Lemma swap_splits s t :
  rooted p j ((s ++ [i]) ++ (t ++ [j])) →
  rooted p' i (s ++ [i]) ∧ rooted p' j (t ++ [j]).
Proof.
  intros (Hchain & _ & Hnd).
  apply chain_app in Hchain as [Hcs Hct]. rewrite last_snoc in Hct.
  simpl in Hct. apply NoDup_app in Hnd as (Hnds & Hdisj & Hndt).
  assert (∀ u, u ∈ s → p' !! u = p !! u) as Hs.
  { intros u Hu. apply swap_elsewhere; intros ->.
    - apply NoDup_app in Hnds as (_ & Hd & _). apply (Hd _ Hu). by left.
    - apply (Hdisj j); apply elem_of_app; [by left|right; by left]. }
  assert (∀ u, u ∈ t → p' !! u = p !! u) as Ht.
  { intros u Hu. apply swap_elsewhere; intros ->.
    - apply (Hdisj i); apply elem_of_app; [right; by left|by left].
    - apply NoDup_app in Hndt as (_ & Hd & _). apply (Hd _ Hu). by left. }
  split; split_and!; try done; try apply last_snoc.
  - apply (chain_hop p p' j i); [done|apply swap_at_i|done].
  - apply (chain_hop p p' i j); [done|apply swap_at_j|done].
Qed.

End swap.

Lemma elem_of_concat (cs : list (list nat)) (x : nat) :
  x ∈ concat cs ↔ ∃ c, c ∈ cs ∧ x ∈ c.
Proof.
  rewrite list_elem_of_In, in_concat. split.
  - intros (c & Hc & Hx). exists c. by rewrite !list_elem_of_In.
  - intros (c & Hc & Hx). exists c. by rewrite <-!list_elem_of_In.
Qed.

Lemma concat_Permutation (cs cs' : list (list nat)) :
  cs ≡ₚ cs' → concat cs ≡ₚ concat cs'.
Proof.
  induction 1 as [|c cs cs' _ IH|c d cs|cs cs' cs'' _ IH1 _ IH2]; simpl.
  - done.
  - by rewrite IH.
  - rewrite !app_assoc. by rewrite (Permutation_app_comm d c).
  - by rewrite IH1.
Qed.

Lemma cycle_decomposition_NoDup p cs :
  cycle_decomposition p cs → NoDup (concat cs).
Proof. intros [_ Hperm]. rewrite Hperm. apply NoDup_seq. Qed.

Lemma cycle_decomposition_covers p cs x :
  cycle_decomposition p cs → x < length p → ∃ c, c ∈ cs ∧ x ∈ c.
Proof.
  intros [_ Hperm] Hx. apply elem_of_concat. rewrite Hperm.
  apply elem_of_seq. lia.
Qed.

Lemma rooted_last_split p j c i :
  rooted p j c → i ∈ c → i ≠ j →
  ∃ s t, c = (s ++ [i]) ++ (t ++ [j]).
Proof.
  intros (_ & Hlast & _) [s [u ->]]%list_elem_of_split Hij.
  rewrite last_app_cons, last_cons in Hlast.
  destruct (last u) as [z|] eqn:Hu; [|congruence].
  injection Hlast as ->. apply last_Some in Hu as [t ->].
  exists s, t. by rewrite <-app_assoc.
Qed.

Lemma rooted_split_last p z c : rooted p z c → ∃ s, c = s ++ [z].
Proof. intros (_ & Hlast & _). by apply last_Some. Qed.

(** Exchanging two entries of a permutation changes the number of its
    cycles by one. *)
Lemma swap_cycle_count p n i j cs :
  valid_perm p n → i < n → j < n → i ≠ j → cycle_decomposition p cs →
  ∃ cs', cycle_decomposition (swap_entries i j p) cs' ∧
         (length cs' = S (length cs) ∨ S (length cs') = length cs).
Proof.
  intros Hp Hi Hj Hij Hcs.
  destruct (valid_perm_lookup_total p n Hp i Hi) as (a & Ha & _).
  destruct (valid_perm_lookup_total p n Hp j Hj) as (b & Hb & _).
  rewrite (swap_entries_eq p i j a b Ha Hb).
  pose proof (valid_perm_length p n Hp) as Hlen.
  destruct (cycle_decomposition_covers p cs i Hcs) as (ci & Hci & Hici); [lia|].
  apply elem_of_Permutation in Hci as [rest Hrest].
  assert (cycle_decomposition p (ci :: rest)) as [Hall Hperm].
  { destruct Hcs as [Hall Hperm]. split; [by rewrite <-Hrest|].
    by rewrite <-(concat_Permutation _ _ Hrest). }
  assert (NoDup (ci ++ concat rest)) as Hnd
    by (apply (cycle_decomposition_NoDup p (ci :: rest)); by split).
  apply NoDup_app in Hnd as (Hndi & Hdisj & Hndrest).
  apply Forall_cons in Hall as [Hcyc Hall].
  destruct (is_cycle_rooted p ci Hcyc) as [z Hz].
  rewrite (Permutation_length Hrest). simpl.
  destruct (decide (j ∈ ci)) as [Hjci|Hjci].
  - destruct (rooted_rotate p z ci j Hz Hjci) as (c' & Hc' & Hpc').
    destruct (rooted_last_split p j c' i Hc') as (s & t & ->);
      [by rewrite Hpc'|done|].
    destruct (swap_splits p i j a b Hij Ha Hb s t Hc') as [Hs Ht].
    exists ((s ++ [i]) :: (t ++ [j]) :: rest). split; [|by left]. split.
    + repeat apply Forall_cons_2; [by eapply rooted_is_cycle..|].
      rewrite Forall_forall in Hall. apply Forall_forall. intros c Hc.
      apply (swap_keeps_cycle p i j a b); [by apply Hall|..].
      * intros Hic. apply (Hdisj i Hici), elem_of_concat. eauto.
      * intros Hjc. apply (Hdisj j Hjci), elem_of_concat. eauto.
    + rewrite swap_length, <-Hperm. simpl. by rewrite app_assoc, Hpc'.
  - destruct (cycle_decomposition_covers p (ci :: rest) j) as (cj & Hcj & Hjcj);
      [split; [by apply Forall_cons|done]|lia|].
    apply elem_of_cons in Hcj as [->|Hcj]; [done|].
    apply elem_of_Permutation in Hcj as [rest2 Hrest2].
    assert (NoDup (cj ++ concat rest2)) as Hnd2.
    { by rewrite (concat_Permutation _ _ Hrest2) in Hndrest. }
    apply NoDup_app in Hnd2 as (Hndj & Hdisj2 & _).
    assert (∀ x, x ∈ ci → (x ∉ cj) ∧ ∀ c, c ∈ rest2 → x ∉ c) as Hdi.
    { intros x Hx. specialize (Hdisj x Hx).
      rewrite (concat_Permutation _ _ Hrest2) in Hdisj. simpl in Hdisj.
      rewrite elem_of_app in Hdisj. split; [tauto|].
      intros c Hc Hxc. apply Hdisj. right. apply elem_of_concat. eauto. }
    rewrite Hrest2 in Hall. apply Forall_cons in Hall as [Hcycj Hall].
    destruct (is_cycle_rooted p cj Hcycj) as [zj Hzj].
    destruct (rooted_rotate p z ci i Hz Hici) as (ci' & Hci' & Hpi).
    destruct (rooted_rotate p zj cj j Hzj Hjcj) as (cj' & Hcj' & Hpj).
    destruct (rooted_split_last p i ci' Hci') as [s ->].
    destruct (rooted_split_last p j cj' Hcj') as [t ->].
    exists (((s ++ [i]) ++ (t ++ [j])) :: rest2).
    split; [|right; by rewrite (Permutation_length Hrest2)]. split.
    + apply Forall_cons_2.
      * apply (rooted_is_cycle _ j).
        apply (swap_merges p i j a b Hij Ha Hb); [done..|].
        intros u Hu. rewrite Hpj. rewrite Hpi in Hu. apply (proj1 (Hdi u Hu)).
      * rewrite Forall_forall in Hall. apply Forall_forall. intros c Hc.
        apply (swap_keeps_cycle p i j a b); [by apply Hall|..].
        -- intros Hic. by apply (proj2 (Hdi i Hici) c).
        -- intros Hjc. apply (Hdisj2 j Hjcj), elem_of_concat. eauto.
    + rewrite swap_length, <-Hperm. simpl.
      rewrite (concat_Permutation _ _ Hrest2). simpl.
      by rewrite Hpi, Hpj, app_assoc.
Qed.

Lemma decomposition_parity p n cs :
  valid_perm p n → cycle_decomposition p cs →
  length cs ≤ n ∧ Nat.even (count_even cs) = Nat.even (n - length cs).
Proof.
  intros Hp [Hall Hperm]. destruct (cycles_parity cs) as [Hle Hpar].
  { eapply Forall_impl; [done|]. by intros c [? _]. }
  rewrite Hperm, length_seq, (valid_perm_length p n Hp) in Hle, Hpar. done.
Qed.

Lemma swap_flips_scan_parity p n i j fuel :
  valid_perm p n → i < n → j < n → i ≠ j → 2 * n + 2 ≤ fuel →
  ∃ st st',
    scan fuel p n = Some st ∧
    scan fuel (swap_entries i j p) n = Some st' ∧
    Nat.even (sc_evenCycles st') = negb (Nat.even (sc_evenCycles st)).
Proof.
  intros Hp Hi Hj Hij Hfuel.
  destruct (valid_perm_lookup_total p n Hp i Hi) as (a & Ha & _).
  destruct (valid_perm_lookup_total p n Hp j Hj) as (b & Hb & _).
  pose proof (swap_valid p n i j a b Hp Hij Ha Hb) as Hp'.
  rewrite <-(swap_entries_eq p i j a b Ha Hb) in Hp'.
  destruct (scan_perm p n fuel Hp Hfuel) as (V & cs & -> & HV & -> & Hcyc).
  destruct (scan_perm _ n fuel Hp' Hfuel) as (V' & cs' & -> & HV' & -> & Hcyc').
  eexists _, _. split_and!; [done..|]. cbn [sc_evenCycles].
  assert (cycle_decomposition p cs) as Hcs.
  { split; [done|]. by rewrite HV, (valid_perm_length p n). }
  assert (cycle_decomposition (swap_entries i j p) cs') as Hcs'.
  { split; [done|]. by rewrite HV', (valid_perm_length _ n). }
  destruct (swap_cycle_count p n i j cs Hp Hi Hj Hij Hcs) as (cs2 & Hcs2 & Hcount).
  destruct (cycle_decomposition_counts _ _ Hcs') as [_ ->].
  destruct (cycle_decomposition_counts _ _ Hcs2) as [_ <-].
  destruct (decomposition_parity p n cs Hp Hcs) as [Hle ->].
  destruct (decomposition_parity _ n cs2 Hp' Hcs2) as [Hle2 ->].
  destruct Hcount as [Hmore|Hless].
  - rewrite Hmore in *.
    replace (n - length cs) with (S (n - S (length cs))) by lia.
    rewrite Nat.even_succ, <-Nat.negb_even. by rewrite negb_involutive.
  - rewrite <-Hless.
    replace (n - length cs2) with (S (n - S (length cs2))) by lia.
    by rewrite Nat.even_succ, <-Nat.negb_even.
Qed.

(** X9: exchanging two entries of a permutation flips the parity of the
    counter [evenCycles] the scan ends with, and so the sign [_det] gives the
    product. *)
Theorem scan_swap_flips_parity p n i j fuel :
  valid_perm p n → i < n → j < n → i ≠ j → 2 * n + 2 ≤ fuel →
  ∃ st st',
    scan fuel p n = Some st ∧
    scan fuel (swap_entries i j p) n = Some st' ∧
    Nat.even (sc_evenCycles st') = negb (Nat.even (sc_evenCycles st)).
Proof. apply swap_flips_scan_parity. Qed.

(** ** No exchange, one exchange *)

Lemma identity_valid n : valid_perm (seq 0 n) n.
Proof. unfold valid_perm. reflexivity. Qed.

Lemma concat_singletons (l : list nat) : concat ((λ k, [k]) <$> l) = l.
Proof. induction l as [|k l IH]; [done|]. rewrite fmap_cons. simpl. by f_equal. Qed.

Lemma identity_decomposition n :
  cycle_decomposition (seq 0 n) ((λ k, [k]) <$> seq 0 n).
Proof.
  split.
  - apply Forall_fmap, Forall_forall. intros k Hk%elem_of_seq.
    split_and!; [done|apply NoDup_singleton|].
    intros [|m] x [= <-]. simpl. rewrite lookup_seq_lt by lia. done.
  - by rewrite concat_singletons, length_seq.
Qed.

Lemma count_even_singletons (l : list nat) : count_even ((λ k, [k]) <$> l) = 0.
Proof.
  induction l as [|k l IH]; [done|]. rewrite fmap_cons, count_even_cons. done.
Qed.

(** On the identity the scan finds no cycle of even length. *)
Lemma scan_identity n fuel :
  2 * n + 2 ≤ fuel →
  ∃ st, scan fuel (seq 0 n) n = Some st ∧ sc_evenCycles st = 0.
Proof.
  intros Hfuel.
  destruct (scan_perm (seq 0 n) n fuel (identity_valid n) Hfuel)
    as (V & cs & -> & HV & -> & Hcyc).
  eexists. split; [done|]. simpl.
  assert (cycle_decomposition (seq 0 n) cs) as Hcs.
  { split; [done|]. by rewrite HV, length_seq. }
  destruct (cycle_decomposition_counts _ _ Hcs) as [_ ->].
  destruct (cycle_decomposition_counts _ _ (identity_decomposition n)) as [_ <-].
  apply count_even_singletons.
Qed.

Section det_exchanges.
Context `{Dependencies}.

(** X8: when the decomposition reports no exchange of rows ([p] is
    [0, 1, ..., n-1]), [det] on the [n] x [n] input, [n] at least 3, is the
    product of the diagonal of [U] as it is; [unaryMinus] is not called. *)
Theorem det_without_row_exchange fuel x w n a a' decomp d0 ds :
  reported_size w x = Some [n; n] → 3 ≤ n → backing w x = Some a →
  lup a = (a', inr decomp) →
  diagonal (U decomp) n = Some (d0 :: ds) →
  p decomp = seq 0 n →
  2 * n + 2 ≤ fuel →
  (det fuel x w).2 = Return (VJs (foldl multiply d0 ds)) ∧
  ∃ l, new_calls (det fuel x) w =
       Call_det n n :: Call_lup l :: product_calls d0 ds.
Proof.
  intros Hsize Hn Hback Hlup Hdiag Hp Hfuel.
  destruct (det_square fuel x w n a Hsize Hback) as (l & w1 & Hdet & Hh & Hc & _).
  assert (heap w1 !! l = Some a) as Hl by (by rewrite Hh, lookup_insert_eq).
  destruct (diagonal_split _ _ _ _ Hdiag) as (Hd0 & Hds & _).
  pose proof (_det_large_exact fuel l n n a a' decomp d0 ds w1 Hl
                ltac:(lia) ltac:(lia) Hlup Hd0 Hds) as Hrun.
  destruct (scan_identity n fuel Hfuel) as (st & Hscan & Heven).
  rewrite Hp, Hscan, Heven in Hrun. simpl in Hrun.
  split; [by rewrite Hdet, Hrun|].
  exists l. apply new_calls_app. by rewrite Hdet, Hrun, <-Hc.
Qed.

(** X10: when the decomposition reports the exchange of two rows and no
    other ([p] is [0, 1, ..., n-1] with the entries at [i] and [j]
    exchanged), [det] is the product of the diagonal of [U] under
    [unaryMinus]. *)
Theorem det_one_row_exchange fuel x w n a a' decomp d0 ds i j :
  reported_size w x = Some [n; n] → 3 ≤ n → backing w x = Some a →
  lup a = (a', inr decomp) →
  diagonal (U decomp) n = Some (d0 :: ds) →
  i < n → j < n → i ≠ j →
  p decomp = swap_entries i j (seq 0 n) →
  2 * n + 2 ≤ fuel →
  (det fuel x w).2 = Return (VJs (unaryMinus (foldl multiply d0 ds))).
Proof.
  intros Hsize Hn Hback Hlup Hdiag Hi Hj Hij Hp Hfuel.
  destruct (det_square fuel x w n a Hsize Hback) as (l & w1 & Hdet & Hh & Hc & _).
  assert (heap w1 !! l = Some a) as Hl by (by rewrite Hh, lookup_insert_eq).
  destruct (diagonal_split _ _ _ _ Hdiag) as (Hd0 & Hds & _).
  pose proof (_det_large_exact fuel l n n a a' decomp d0 ds w1 Hl
                ltac:(lia) ltac:(lia) Hlup Hd0 Hds) as Hrun.
  destruct (scan_identity n fuel Hfuel) as (st0 & Hscan0 & Heven0).
  destruct (swap_flips_scan_parity (seq 0 n) n i j fuel (identity_valid n)
              Hi Hj Hij Hfuel) as (st & st' & Hst & Hst' & Hflip).
  rewrite Hscan0 in Hst. injection Hst as <-.
  rewrite Heven0 in Hflip. simpl in Hflip.
  rewrite Hp, Hst', Hflip in Hrun. cbv zeta in Hrun.
  by rewrite Hdet, Hrun.
Qed.

End det_exchanges.

(** ** [det] comes to an end *)

Section det_ends.
Context `{Dependencies}.

Lemma ends_bind {A B} (m : M A) (k : A → M B) :
  comes_to_an_end m → (∀ a, comes_to_an_end (k a)) → comes_to_an_end (m ≫= k).
Proof.
  intros Hm Hk w. specialize (Hm w). unfold mbind, M_bind.
  destruct (m w) as [w' [a|e|]]; simpl in *; [apply Hk|done..].
Qed.

Lemma ends_ret {A} (a : A) : comes_to_an_end (mret a).
Proof. by intros w. Qed.

Lemma ends_throw {A} e : comes_to_an_end (throw (A := A) e).
Proof. by intros w. Qed.

Lemma ends_record c : comes_to_an_end (record c).
Proof. by intros w. Qed.

Lemma ends_write l a : comes_to_an_end (write l a).
Proof. by intros w. Qed.

Lemma ends_read l : comes_to_an_end (read l).
Proof. intros w. unfold read. by destruct (heap w !! l). Qed.

Lemma ends_index2 a i j : comes_to_an_end (index2 a i j).
Proof. intros w. unfold index2. by destruct (a !! i) as [[?|?]|]. Qed.

Lemma ends_multiply a b : comes_to_an_end (call_multiply a b).
Proof. by intros w. Qed.

Lemma ends_subtract a b : comes_to_an_end (call_subtract a b).
Proof. by intros w. Qed.

Lemma ends_unaryMinus a : comes_to_an_end (call_unaryMinus a).
Proof. by intros w. Qed.

Create HintDb ends_db discriminated.

#[local] Hint Resolve ends_ret ends_throw ends_record ends_write ends_read
  ends_index2 ends_multiply ends_subtract ends_unaryMinus : ends_db.

(** Splits a computation along its binds and branches. *)
Ltac split_ends :=
  repeat match goal with
    | |- comes_to_an_end (_ ≫= _) => apply ends_bind
    | |- ∀ _, _ => intro
    | |- comes_to_an_end (if ?b then _ else _) => destruct b
    end;
  eauto with ends_db.

Lemma ends_get2 l i j : comes_to_an_end (get2 l i j).
Proof. unfold get2. split_ends. Qed.

Lemma ends_diagonal_loop decomp idx det :
  comes_to_an_end (diagonal_loop decomp idx det).
Proof. revert det. induction idx as [|i idx IH]; intros det; simpl; split_ends. Qed.

#[local] Hint Resolve ends_get2 ends_diagonal_loop : ends_db.

Lemma _det_small_ends fuel l n cols :
  n = 1 ∨ n = 2 → comes_to_an_end (_det fuel l n cols).
Proof. intros [-> | ->]; unfold _det; cbn [Nat.eqb]; split_ends. Qed.

(** The evaluator comes to an end unless the scan of the array [p] it got
    from the decomposition does not. *)
Lemma _det_ends fuel l n cols w :
  (∀ a decomp, heap w !! l = Some a → (lup a).2 = inr decomp →
               scan fuel (p decomp) n ≠ None) →
  (_det fuel l n cols w).2 ≠ OutOfFuel.
Proof.
  intros Hscan.
  destruct (decide (n = 1 ∨ n = 2)) as [Hn|Hn]; [by apply _det_small_ends|].
  unfold _det.
  destruct (Nat.eqb_spec n 1); [lia|]. destruct (Nat.eqb_spec n 2); [lia|].
  erewrite bind_run by apply record_run.
  unfold call_lup.
  set (w1 := MkWorld (heap w) (calls w ++ [Call_det n cols])).
  destruct (heap w !! l) as [a|] eqn:Hl.
  - assert (heap (MkWorld (heap w1) (calls w1 ++ [Call_lup l])) !! l = Some a)
      as Hl1 by done.
    destruct (lup a) as [a' [e|decomp]] eqn:Hlup.
    + erewrite bind_throw; [done|].
      erewrite bind_run by apply record_run.
      erewrite bind_run by (apply read_run; exact Hl1).
      rewrite Hlup. done.
    + erewrite bind_run.
      2:{ erewrite bind_run by apply record_run.
          erewrite bind_run by (apply read_run; exact Hl1).
          rewrite Hlup. reflexivity. }
      specialize (Hscan a decomp eq_refl). rewrite Hlup in Hscan.
      specialize (Hscan eq_refl).
      destruct (scan fuel (p decomp) n) as [st|]; [|done].
      match goal with |- (?m ?w').2 ≠ _ =>
        generalize w'; change (comes_to_an_end m) end.
      split_ends.
  - erewrite bind_throw; [done|].
    erewrite bind_run by apply record_run.
    unfold mbind, M_bind, read. cbn [heap w1]. by rewrite Hl.
Qed.

(** X11: [det] comes to an end on every input, by returning or by raising,
    as long as the array [p] of a decomposition that succeeds is a
    permutation of [0, n) and the fuel is at least [2 n + 2]. *)
Theorem det_comes_to_an_end fuel x w :
  (∀ n a decomp,
     reported_size w x = Some [n; n] → backing w x = Some a →
     (lup a).2 = inr decomp →
     valid_perm (p decomp) n ∧ 2 * n + 2 ≤ fuel) →
  (det fuel x w).2 ≠ OutOfFuel.
Proof.
  intros Hlup.
  assert (∀ size l,
            (∀ n a decomp, size = [n; n] → heap w !! l = Some a →
                           (lup a).2 = inr decomp →
                           valid_perm (p decomp) n ∧ 2 * n + 2 ≤ fuel) →
            (det fuel (VMatrix (MkMatrix size l)) w).2 ≠ OutOfFuel) as HM.
  { clear Hlup. intros size l Hlup.
    destruct size as [|s0 [|s1 [|s2 size]]].
    - rewrite det_Matrix_rank_0. unfold clone, alloc, read, mbind, M_bind. simpl.
      by destruct (heap w !! l).
    - rewrite det_Matrix_rank_1. destruct (s0 =? 1); [|done].
      by destruct (heap w !! l).
    - rewrite det_Matrix_rank_2. destruct (Nat.eqb_spec s0 s1) as [<-|]; [|done].
      destruct (heap w !! l) as [a|] eqn:Hl; [|done].
      apply _det_ends. cbn [heap]. intros a0 decomp Ha0 Hdecomp.
      rewrite lookup_insert_eq in Ha0. injection Ha0 as <-.
      destruct (Hlup s0 a decomp eq_refl eq_refl Hdecomp) as [Hp Hfuel].
      destruct (scan_perm (p decomp) s0 fuel Hp Hfuel) as (? & ? & -> & _). done.
    - done. }
  destruct x as [v|l|[size l]].
  - done.
  - destruct (heap w !! l) as [a|] eqn:Hl.
    + rewrite (det_VArray fuel l a w Hl). apply HM.
      intros n a0 decomp Hsize Ha0 Hdecomp. rewrite Hl in Ha0. injection Ha0 as <-.
      apply (Hlup n a decomp); [|done..]. unfold reported_size.
      rewrite Hl. simpl. by rewrite Hsize.
    + by rewrite det_VArray_dangling.
  - apply HM. intros n a decomp -> Ha Hdecomp. by apply (Hlup n a decomp).
Qed.

End det_ends.

(** ** The further properties at work on integer matrices *)

Section more_examples.
Import Numbers.

Lemma scan_stops_only_when_all_marked_witness :
  ∃ st, scan 8 [1; 0; 2] 3 = Some st ∧ 3 ≤ sc_i st ∧
        Forall (key_of [1; 0; 2]) (sc_visited st).
Proof.
  destruct (scan 8 [1; 0; 2] 3) as [st|] eqn:Hscan; [|by vm_compute in Hscan].
  exists st. split; [done|].
  destruct (scan_stops_only_when_all_marked 8 [1; 0; 2] 3 st Hscan)
    as (? & _ & ?). done.
Defined.

Lemma scan_never_stops_on_missing_index_witness :
  scan 50 [1; 1; 2] 3 = None.
Proof.
  apply (scan_never_stops_on_missing_index 50 [1; 1; 2] 3 0); [lia|].
  rewrite !elem_of_cons, elem_of_nil. lia.
Defined.

Lemma det_never_returns_on_missing_index_witness :
  (det (H := numbers_given [1; 1; 2]) 50 (VArray 1%positive)
       (store_given [1; 1; 2] [rows [[2; 1; 1]; [0; 3; 1]; [0; 0; 4]]%Z])).2 =
  OutOfFuel.
Proof.
  eapply (det_never_returns_on_missing_index (H := numbers_given [1; 1; 2])
            50 _ _ 3 _ _ _ _ _ 0).
  - reflexivity.
  - lia.
  - lia.
  - reflexivity.
  - reflexivity.
  - reflexivity.
  - lia.
  - simpl. rewrite !elem_of_cons, elem_of_nil. lia.
Defined.

(** The decomposition of the first instance does not know this matrix. *)
Lemma det_passes_lup_failure_witness :
  (det (H := numbers) 8 (VArray 1%positive)
       (store [rows [[1; 2; 3]; [4; 5; 6]; [7; 8; 9]]%Z])).2 =
  Throw (H := numbers) (LupFailure (H := numbers) tt).
Proof.
  edestruct (det_passes_lup_failure (H := numbers) 8 (VArray 1%positive)
               (store [rows [[1; 2; 3]; [4; 5; 6]; [7; 8; 9]]%Z]) 3)
    as [Hdet _].
  - reflexivity.
  - lia.
  - lia.
  - reflexivity.
  - reflexivity.
  - exact Hdet.
Defined.

Lemma det_large_calls_witness :
  ∃ l,
    new_calls (det (H := numbers) 8 (VArray 1%positive))
              (store [rows [[0; 1; 0]; [1; 0; 0]; [0; 0; 1]]%Z]) =
    [Call_det (H := numbers) 3 3; Call_lup (H := numbers) l;
     Call_multiply (H := numbers) (Elem (Num 1)) (Elem (Num 1));
     Call_multiply (H := numbers) (Elem (Num 1)) (Elem (Num 1));
     Call_unaryMinus (H := numbers) (Elem (Num 1))].
Proof.
  edestruct (det_large_calls (H := numbers) 8 (VArray 1%positive)
               (store [rows [[0; 1; 0]; [1; 0; 0]; [0; 0; 1]]%Z]) 3)
    as (l & _ & Hcalls & _).
  - reflexivity.
  - lia.
  - reflexivity.
  - reflexivity.
  - reflexivity.
  - reflexivity.
  - exists l. rewrite Hcalls. reflexivity.
Defined.

(** [U] of an empty matrix has no row to read. *)
Lemma det_empty_matrix_witness :
  (det (H := numbers_given []) 8 (VMatrix (MkMatrix [0; 0] 1%positive))
       (store_given [] [[]])).2 =
  Throw (H := numbers_given []) (TypeError (H := numbers_given [])).
Proof.
  edestruct (det_empty_matrix (H := numbers_given []) 8
               (VMatrix (MkMatrix [0; 0] 1%positive)) (store_given [] [[]]))
    as [Hthrow _].
  - reflexivity.
  - reflexivity.
  - reflexivity.
  - apply Hthrow. reflexivity.
Defined.

Lemma lup_called_iff_witness :
  ∃ l, Call_lup (H := numbers) l ∈
       new_calls (det (H := numbers) 8 (VArray 1%positive))
                 (store [rows [[2; 1; 1]; [0; 3; 1]; [0; 0; 4]]%Z]).
Proof.
  apply (lup_called_iff (H := numbers) 8 (VArray 1%positive)
           (store [rows [[2; 1; 1]; [0; 3; 1]; [0; 0; 4]]%Z])).
  exists 3, (rows [[2; 1; 1]; [0; 3; 1]; [0; 0; 4]]%Z).
  split_and!; [reflexivity|lia|lia|reflexivity].
Defined.

Lemma det_without_row_exchange_witness :
  (det (H := numbers_given [0; 1; 2]) 8 (VArray 1%positive)
       (store_given [0; 1; 2] [rows [[2; 1; 1]; [0; 3; 1]; [0; 0; 4]]%Z])).2 =
  Return (H := numbers_given [0; 1; 2])
    (VJs (H := numbers_given [0; 1; 2]) (Elem (Num 24))).
Proof.
  edestruct (det_without_row_exchange (H := numbers_given [0; 1; 2]) 8
               (VArray 1%positive)
               (store_given [0; 1; 2] [rows [[2; 1; 1]; [0; 3; 1]; [0; 0; 4]]%Z])
               3) as [Hdet _].
  - reflexivity.
  - lia.
  - reflexivity.
  - reflexivity.
  - reflexivity.
  - reflexivity.
  - simpl. lia.
  - exact Hdet.
Defined.

Lemma scan_swap_flips_parity_witness :
  ∃ st st',
    scan 8 [1; 0; 2] 3 = Some st ∧ scan 8 [2; 0; 1] 3 = Some st' ∧
    Nat.even (sc_evenCycles st') = negb (Nat.even (sc_evenCycles st)).
Proof.
  apply (scan_swap_flips_parity [1; 0; 2] 3 0 2 8); try lia.
  apply perm_swap.
Defined.

Lemma det_one_row_exchange_witness :
  (det (H := numbers_given [1; 0; 2]) 8 (VArray 1%positive)
       (store_given [1; 0; 2] [rows [[2; 1; 1]; [0; 3; 1]; [0; 0; 4]]%Z])).2 =
  Return (H := numbers_given [1; 0; 2])
    (VJs (H := numbers_given [1; 0; 2]) (Elem (Num (-24)))).
Proof.
  apply (det_one_row_exchange (H := numbers_given [1; 0; 2]) 8
           (VArray 1%positive)
           (store_given [1; 0; 2] [rows [[2; 1; 1]; [0; 3; 1]; [0; 0; 4]]%Z])
           3 (rows [[2; 1; 1]; [0; 3; 1]; [0; 0; 4]]%Z)
           (rows [[2; 1; 1]; [0; 3; 1]; [0; 0; 4]]%Z)
           (MkLUP [] (rows [[2; 1; 1]; [0; 3; 1]; [0; 0; 4]]%Z) [1; 0; 2])
           (Elem (Num 2)) [Elem (Num 3); Elem (Num 4)] 0 1).
  - reflexivity.
  - lia.
  - reflexivity.
  - reflexivity.
  - reflexivity.
  - lia.
  - lia.
  - lia.
  - reflexivity.
  - simpl. lia.
Defined.

Lemma det_comes_to_an_end_witness :
  (det (H := numbers) 8 (VArray 1%positive)
       (store [rows [[0; 1; 0]; [1; 0; 0]; [0; 0; 1]]%Z])).2 ≠
  OutOfFuel (H := numbers).
Proof.
  apply (det_comes_to_an_end (H := numbers)).
  intros n a decomp Hsize Hback Hlup.
  vm_compute in Hsize. injection Hsize as <-.
  vm_compute in Hback. injection Hback as <-.
  vm_compute in Hlup. injection Hlup as <-.
  split; [apply perm_swap|simpl; lia].
Defined.

End more_examples.
